(** * Clarissa: a shallow embedding of the agent core

    Models of the LM Studio channel-token normaliser
    ([src/src/llm/providers/lmstudio.ts]), the Swift agent loop and history
    trimming ([Agent] in the iOS sources), the on-device provider and the
    provider registry ([AppleAIProvider], [ProviderRegistry]), the
    local-model cache of [local-llama.ts] and the TypeScript [ToolRegistry],
    together with the properties stated for them. *)

From Stdlib Require Import Ascii String Bool Arith Lia ZArith Sorted.
From stdpp Require Import base list gmap strings.

Open Scope list_scope.

(** ** Character strings

    JavaScript strings are modelled as [list ascii] (one element per code
    unit, ASCII range only).  [str] converts a literal. *)

Definition str (s : string) : list ascii := list_ascii_of_string s.

Fixpoint is_prefix (pat s : list ascii) : bool :=
  match pat, s with
  | [], _ => true
  | _ :: _, [] => false
  | a :: pat', b :: s' => Ascii.eqb a b && is_prefix pat' s'
  end.

(** First position [>= pos] (counted from the start of the original
    string) at which [pat] occurs in the suffix [s]. *)
Fixpoint search (pat s : list ascii) (pos : nat) : option nat :=
  if is_prefix pat s then Some pos
  else match s with
       | [] => None
       | _ :: s' => search pat s' (S pos)
       end.

(** [s.indexOf(pat, from)], [None] standing for [-1]. *)
Definition indexOf (s pat : list ascii) (from : nat) : option nat :=
  search pat (skipn from s) (Nat.min from (length s)).

(** [s.includes(pat)]. *)
Definition includes (s pat : list ascii) : bool :=
  match indexOf s pat 0 with Some _ => true | None => false end.

(** [s.slice(a, b)] for [0 <= a], [0 <= b]. *)
Definition slice (s : list ascii) (a b : nat) : list ascii :=
  firstn (b - a) (skipn a s).

(** ** [StreamingOutputParser] (lmstudio.ts, lines 77-128) *)

Module Normalizer.

Definition finalMarker : list ascii := str "<|channel|>final<|message|>".

Definition endMarkers : list (list ascii) :=
  [str "<|end|>"; str "<|start|>"; str "<|channel|>"].

Record Parser := mkParser { buffer : list ascii; emittedLength : nat }.

Definition newParser : Parser := mkParser [] 0.

(** The [for (const marker of endMarkers)] loop: the nearest end marker
    at or after [contentStart], or the initial [contentEnd]. *)
Definition nearestEnd (buf : list ascii) (markers : list (list ascii))
    (contentStart contentEnd : nat) : nat :=
  fold_left
    (fun ce marker =>
       match indexOf buf marker contentStart with
       | Some mi => if mi <? ce then mi else ce
       | None => ce
       end)
    markers contentEnd.

(** [processChunk(chunk)]: returns the string to emit and the new state. *)
Definition processChunk (p : Parser) (chunk : list ascii) : list ascii * Parser :=
  let buf := buffer p ++ chunk in
  match indexOf buf finalMarker 0 with
  | None => ([], mkParser buf (emittedLength p))
  | Some finalIndex =>
      let contentStart := finalIndex + length finalMarker in
      let contentEnd := nearestEnd buf endMarkers contentStart (length buf) in
      let currentContent := slice buf contentStart contentEnd in
      if emittedLength p <? length currentContent then
        (slice currentContent (emittedLength p) (length currentContent),
         mkParser buf (length currentContent))
      else ([], mkParser buf (emittedLength p))
  end.

(** Feeding a sequence of chunks through one parser, as the [onText]
    callback does; the result is the concatenation of all emissions. *)
Fixpoint feed (p : Parser) (chunks : list (list ascii)) : list ascii * Parser :=
  match chunks with
  | [] => ([], p)
  | c :: cs =>
      let '(out, p1) := processChunk p c in
      let '(rest, p2) := feed p1 cs in
      (out ++ rest, p2)
  end.

Definition emitted (chunks : list (list ascii)) : list ascii :=
  fst (feed newParser chunks).

(** The final-channel content that [processChunk] extracts from a buffer
    ([currentContent] in the source; empty while no final marker is
    buffered).  Used to state the parser's invariant. *)
Definition currentContent (buf : list ascii) : list ascii :=
  match indexOf buf finalMarker 0 with
  | None => []
  | Some finalIndex =>
      let contentStart := finalIndex + length finalMarker in
      slice buf contentStart (nearestEnd buf endMarkers contentStart (length buf))
  end.

(** The sentinel example of the specification, with the markers the code
    uses. *)
Definition sentinelExample : list ascii :=
  str "<|channel|>analysis<|message|>x<|end|><|start|>a<|channel|>final<|message|>Hello".

(** Every split of [s] can only extend the extracted content. *)
Definition monotone_on (s : list ascii) : Prop :=
  forall p q r, s = p ++ q ++ r ->
    is_prefix (currentContent p) (currentContent (p ++ q)) = true.

(** Decidable check of the same property, one character at a time. *)
Definition monotone_steps (s : list ascii) : bool :=
  forallb (fun i => is_prefix (currentContent (firstn i s))
                              (currentContent (firstn (S i) s)))
          (seq 0 (length s)).

End Normalizer.


(** ** [parseModelOutput] (lmstudio.ts, lines 30-71) *)

Module ModelOutput.

(** JavaScript's [\s] and the whitespace that [String.prototype.trim]
    removes, restricted to ASCII: tab, LF, VT, FF, CR and space. *)
Definition is_space (c : ascii) : bool :=
  let n := nat_of_ascii c in (9 <=? n) && (n <=? 13) || (n =? 32).

(** [[\w.]]: letters, digits, underscore and dot. *)
Definition is_word_or_dot (c : ascii) : bool :=
  let n := nat_of_ascii c in
  (48 <=? n) && (n <=? 57) || (65 <=? n) && (n <=? 90)
  || (97 <=? n) && (n <=? 122) || (n =? 95) || (n =? 46).

Fixpoint span (f : ascii -> bool) (s : list ascii) : list ascii * list ascii :=
  match s with
  | c :: s' => if f c then let '(a, b) := span f s' in (c :: a, b) else ([], s)
  | [] => ([], [])
  end.

Definition trim (s : list ascii) : list ascii :=
  rev (snd (span is_space (rev (snd (span is_space s))))).

(** Tests [pat] at the head of [s] and returns what follows. *)
Definition eat (pat s : list ascii) : option (list ascii) :=
  if is_prefix pat s then Some (skipn (length pat) s) else None.

Definition upto_close (s : list ascii) : option (list ascii * list ascii) :=
  match indexOf s (str "}") 0 with
  | Some i => Some (firstn (S i) s, skipn (S i) s)
  | None => None
  end.

(** One attempt of
    [/<\|channel\|>commentary\s+to=([\w.]+)(?:\s+code|\s*<\|constrain\|>json)<\|message\|>(\{[\s\S]*?\})/]
    anchored at the head of [s]: the tool name, the argument text and the
    input after the match.  The quantifiers cannot backtrack usefully
    (the characters that follow each of them are outside its class), so a
    single left-to-right pass decides the match. *)
Definition match_tool (s : list ascii)
    : option (list ascii * list ascii * list ascii) :=
  match eat (str "<|channel|>commentary") s with
  | None => None
  | Some s1 =>
    let '(ws, s2) := span is_space s1 in
    if negb (length ws =? 0) then
      match eat (str "to=") s2 with
      | None => None
      | Some s3 =>
        let '(name, s4) := span is_word_or_dot s3 in
        if negb (length name =? 0) then
          let '(ws2, s5) := span is_space s4 in
          let after_alt :=
            if negb (length ws2 =? 0) && is_prefix (str "code") s5
            then eat (str "code") s5
            else eat (str "<|constrain|>json") s5 in
          match after_alt with
          | None => None
          | Some s6 =>
            match eat (str "<|message|>") s6 with
            | None => None
            | Some s7 =>
              if is_prefix (str "{") s7 then
                match upto_close (skipn 1 s7) with
                | Some (body, rest) => Some (name, str "{" ++ body, rest)
                | None => None
                end
              else None
            end
          end
        else None
      end
    else None
  end.

(** The [while ((toolMatch = toolCallRegex.exec(rawOutput)) !== null)]
    loop of a global regex: the matches from left to right, each search
    resuming after the previous match. *)
Fixpoint scan_tools (fuel : nat) (s : list ascii)
    : list (list ascii * list ascii) :=
  match fuel with
  | 0 => []
  | S fuel' =>
    match match_tool s with
    | Some (name, args, rest) => (name, args) :: scan_tools fuel' rest
    | None => match s with [] => [] | _ :: s' => scan_tools fuel' s' end
    end
  end.

(** [rawToolName.replace(/\.(run|execute|call)$/, "")]. *)
Definition strip_suffix (name : list ascii) : list ascii :=
  let try_one sfx k :=
    let n := length name in let m := length sfx in
    if (m <=? n) && is_prefix sfx (skipn (n - m) name)
    then firstn (n - m) name else k in
  try_one (str ".run") (try_one (str ".execute") (try_one (str ".call") name)).

Record ParsedOutput := mkParsed {
  content : list ascii;
  toolCalls : list (list ascii * list ascii)  (* name, arguments *)
}.

Section Parse.

(** Whether [JSON.parse] accepts a text (a JavaScript built-in). *)
Variable jsonParses : list ascii -> bool.

Definition finalContentOf (raw : list ascii) : list ascii :=
  match indexOf raw Normalizer.finalMarker 0 with
  | None => []
  | Some fi =>
      let cs := fi + length Normalizer.finalMarker in
      trim (slice raw cs
              (Normalizer.nearestEnd raw [str "<|end|>"; str "<|start|>"] cs
                 (length raw)))
  end.

Definition parseModelOutput (rawOutput : list ascii) : ParsedOutput :=
  if negb (includes rawOutput (str "<|channel|>"))
     && negb (includes rawOutput (str "<|message|>"))
  then mkParsed rawOutput []
  else
    mkParsed (finalContentOf rawOutput)
      (List.filter (fun nc => jsonParses (snd nc))
         (map (fun nc => (strip_suffix (fst nc), snd nc))
            (scan_tools (S (length rawOutput)) rawOutput))).

End Parse.

End ModelOutput.

(** ** Swift agent: messages, token budget and history trimming
    ([TokenBudget], [Agent.trimHistoryIfNeeded]) *)

Module Swift.

(** A Swift [String] as its sequence of [Character]s, each a sequence of
    Unicode scalar values. *)
Definition SwiftString := list (list nat).

(** A literal of ASCII text; every character is one scalar. *)
Definition sw (s : string) : SwiftString :=
  map (fun c => [nat_of_ascii c]) (list_ascii_of_string s).

Inductive Role := System | User | Assistant | ToolRole.

Definition role_eqb (a b : Role) : bool :=
  match a, b with
  | System, System | User, User | Assistant, Assistant | ToolRole, ToolRole => true
  | _, _ => false
  end.

Record ToolCall := mkToolCall {
  tc_id : string; tc_name : string; tc_arguments : string }.

Record Message := mkMessage {
  role : Role;
  content : SwiftString;
  toolCalls : option (list ToolCall);
  toolCallId : option string;
  msg_name : option string }.

Definition systemMsg (s : SwiftString) : Message := mkMessage System s None None None.
Definition userMsg (s : SwiftString) : Message := mkMessage User s None None None.
Definition assistantMsg (s : SwiftString) (tcs : option (list ToolCall)) : Message :=
  mkMessage Assistant s tcs None None.
Definition toolMsg (callId name : string) (s : SwiftString) : Message :=
  mkMessage ToolRole s None (Some callId) (Some name).

Definition is_system (m : Message) : bool := role_eqb (role m) System.

Module TokenBudget.
Local Open Scope Z_scope.
Definition totalContextWindow : Z := 4096.
Definition systemReserve : Z := 300.
Definition responseReserve : Z := 1500.
Definition maxHistoryTokens : Z :=
  totalContextWindow - systemReserve - responseReserve.

(** [estimate(_ text: String)]. *)
Definition estimate (text : SwiftString) : Z :=
  let asciiCount := Z.of_nat (length (List.filter (fun u => Nat.ltb u 128) (concat text))) in
  let count := Z.of_nat (length text) in
  let isMainlyLatin := count / 2 <? asciiCount in
  if isMainlyLatin then Z.max 1 (count / 4) else count.

(** [estimate(_ messages: [Message])]. *)
Definition estimate_msgs (ms : list Message) : Z :=
  fold_left (fun acc m => acc + estimate (content m)) ms 0.
End TokenBudget.

(** [messages.firstIndex(where: { $0.role != .system })] followed by
    [messages.remove(at:)]: the removed message and the rest. *)
Fixpoint remove_first_non_system (ms : list Message) : option (Message * list Message) :=
  match ms with
  | [] => None
  | m :: ms' =>
      if is_system m then
        match remove_first_non_system ms' with
        | Some (r, rest) => Some (r, m :: rest)
        | None => None
        end
      else Some (m, ms')
  end.

(** The [while] loop of [trimHistoryIfNeeded]; each iteration removes a
    message, so [length messages] iterations suffice. *)
Fixpoint trim_loop (fuel : nat) (messages : list Message) (tokenCount : Z) : list Message :=
  match fuel with
  | 0 => messages
  | S fuel' =>
      if Z.ltb TokenBudget.maxHistoryTokens tokenCount && Nat.ltb 3 (length messages) then
        match remove_first_non_system messages with
        | Some (removed, rest) =>
            trim_loop fuel' rest (tokenCount - TokenBudget.estimate (content removed))%Z
        | None => messages
        end
      else messages
  end.

Definition trimHistoryIfNeeded (messages : list Message) : list Message :=
  if length messages <=? 2 then messages
  else
    let historyMessages := List.filter (fun m => negb (is_system m)) messages in
    trim_loop (length messages) messages (TokenBudget.estimate_msgs historyMessages).

End Swift.

(** ** Swift agent loop ([Agent.run]) *)

Module SwiftAgent.
Import Swift.

Record AgentConfig := mkConfig { maxIterations : nat; autoApprove : bool }.

Inductive AgentError :=
  | maxIterationsReached
  | noProvider
  | providerError (description : SwiftString).

(** One element of [provider.streamComplete(messages:tools:)]. *)
Record StreamChunk := mkChunk {
  chunk_content : option SwiftString;
  chunk_toolCalls : option (list ToolCall) }.

(** Calls the agent makes to its collaborators, in order. *)
Inductive Event :=
  | EvThinking
  | EvBackendCall (transcript : list Message)
  | EvStreamChunk (text : SwiftString)
  | EvToolCall (tc : ToolCall)
  | EvConfirm (tc : ToolCall)
  | EvExecute (tc : ToolCall)
  | EvToolResult (name : string) (result : SwiftString)
  | EvResponse (text : SwiftString).

(** The collaborators of one [Agent]: its configuration, the provider
    ([None] when unset; given the number of earlier backend calls and the
    transcript, the chunks it streams and the error it may throw after
    them), the tool registry's [requiresConfirmation] and [execute] (result
    or the [localizedDescription] of the error it throws), the delegate's
    [onToolConfirmation] ([None] when [callbacks] is nil) and the prompt
    returned by [buildSystemPrompt]. *)
Record AgentEnv := mkEnv {
  config : AgentConfig;
  provider : option (nat -> list Message -> list StreamChunk * option SwiftString);
  requiresConfirmation : string -> bool;
  onToolConfirmation : option (ToolCall -> bool);
  toolExecute : string -> string -> SwiftString + SwiftString;
  systemPrompt : SwiftString }.

Record AgentState := mkState { messages : list Message; events : list Event }.

(** A state and error monad over [AgentState]. *)
Definition M (A : Type) := AgentState -> (A + AgentError) * AgentState.

Definition ret {A} (a : A) : M A := fun s => (inl a, s).
Definition throw {A} (e : AgentError) : M A := fun s => (inr e, s).
Definition bind {A B} (m : M A) (k : A -> M B) : M B :=
  fun s => match m s with
           | (inl a, s') => k a s'
           | (inr e, s') => (inr e, s')
           end.
Definition get : M AgentState := fun s => (inl s, s).
Definition emit (ev : Event) : M unit :=
  fun s => (inl tt, mkState (messages s) (events s ++ [ev])).
Definition append (m : Message) : M unit :=
  fun s => (inl tt, mkState (messages s ++ [m]) (events s)).
Definition set_messages (ms : list Message) : M unit :=
  fun s => (inl tt, mkState ms (events s)).

Notation "x <- m ;; k" := (bind m (fun x => k)) (at level 100, m at next level, right associativity).
Notation "m ;;; k" := (bind m (fun _ => k)) (at level 100, right associativity).

Definition dq : SwiftString := [[34]].

(** ["{\"rejected\": true, \"message\": \"User rejected this tool execution\"}"] *)
Definition rejectedPayload : SwiftString :=
  sw "{" ++ dq ++ sw "rejected" ++ dq ++ sw ": true, " ++ dq ++ sw "message" ++ dq
  ++ sw ": " ++ dq ++ sw "User rejected this tool execution" ++ dq ++ sw "}".

(** ["{\"error\": \"\(error.localizedDescription)\"}"] *)
Definition errorResult (description : SwiftString) : SwiftString :=
  sw "{" ++ dq ++ sw "error" ++ dq ++ sw ": " ++ dq ++ description ++ dq ++ sw "}".

Definition is_backend_call (ev : Event) : bool :=
  match ev with EvBackendCall _ => true | _ => false end.

Definition backendCalls (evs : list Event) : nat :=
  length (List.filter is_backend_call evs).

Section Run.
Variable E : AgentEnv.

(** The [do]/[catch] around [toolRegistry.execute]. *)
Definition executeTool (tc : ToolCall) : M unit :=
  emit (EvExecute tc) ;;;
  match toolExecute E (tc_name tc) (tc_arguments tc) with
  | inl result =>
      append (toolMsg (tc_id tc) (tc_name tc) result) ;;;
      emit (EvToolResult (tc_name tc) result)
  | inr description =>
      append (toolMsg (tc_id tc) (tc_name tc) (errorResult description)) ;;;
      emit (EvToolResult (tc_name tc) (errorResult description))
  end.

(** The body of [for toolCall in toolCalls]. *)
Definition handleToolCall (tc : ToolCall) : M unit :=
  emit (EvToolCall tc) ;;;
  let needsConfirmation := requiresConfirmation E (tc_name tc) in
  if negb (autoApprove (config E)) && needsConfirmation then
    approved <- match onToolConfirmation E with
                | Some confirm => emit (EvConfirm tc) ;;; ret (confirm tc)
                | None => ret true
                end ;;
    if negb approved then
      append (toolMsg (tc_id tc) (tc_name tc) rejectedPayload) ;;;
      emit (EvToolResult (tc_name tc) (sw "Rejected by user"))
    else executeTool tc
  else executeTool tc.

Fixpoint handleToolCalls (tcs : list ToolCall) : M unit :=
  match tcs with
  | [] => ret tt
  | tc :: rest => handleToolCall tc ;;; handleToolCalls rest
  end.

(** [fullContent] and [toolCalls] accumulated over the stream. *)
Definition streamedContent (chunks : list StreamChunk) : SwiftString :=
  concat (map (fun c => match chunk_content c with Some t => t | None => [] end) chunks).

Definition streamedToolCalls (chunks : list StreamChunk) : list ToolCall :=
  fold_left (fun acc c => match chunk_toolCalls c with Some calls => calls | None => acc end)
    chunks [].

Definition emitChunks (chunks : list StreamChunk) : M unit :=
  fold_right (fun c k => match chunk_content c with
                         | Some t => emit (EvStreamChunk t) ;;; k
                         | None => k
                         end) (ret tt) chunks.

(** [for _ in 0..<config.maxIterations] with [n] iterations left. *)
Fixpoint reactLoop
    (stream : nat -> list Message -> list StreamChunk * option SwiftString)
    (n : nat) : M SwiftString :=
  match n with
  | 0 => throw maxIterationsReached
  | S n' =>
      emit EvThinking ;;;
      st <- get ;;
      emit (EvBackendCall (messages st)) ;;;
      let '(chunks, err) := stream (backendCalls (events st)) (messages st) in
      emitChunks chunks ;;;
      match err with
      | Some e => throw (providerError e)
      | None =>
          let fullContent := streamedContent chunks in
          let toolCalls := streamedToolCalls chunks in
          append (assistantMsg fullContent
                    (match toolCalls with [] => None | _ => Some toolCalls end)) ;;;
          match toolCalls with
          | _ :: _ => handleToolCalls toolCalls ;;; reactLoop stream n'
          | [] => emit (EvResponse fullContent) ;;; ret fullContent
          end
      end
  end.

(** Upsert of the system prompt and the new user message. *)
Definition composeMessages (ms : list Message) (userMessage : SwiftString) : list Message :=
  let withSystem :=
    match ms with
    | m :: rest => if is_system m then systemMsg (systemPrompt E) :: rest
                   else systemMsg (systemPrompt E) :: ms
    | [] => [systemMsg (systemPrompt E)]
    end in
  withSystem ++ [userMsg userMessage].

Definition run (userMessage : SwiftString) : M SwiftString :=
  match provider E with
  | None => throw noProvider
  | Some stream =>
      st <- get ;;
      set_messages (trimHistoryIfNeeded (composeMessages (messages st) userMessage)) ;;;
      reactLoop stream (maxIterations (config E))
  end.

End Run.

End SwiftAgent.

(** ** JavaScript values, as [JSON.parse] returns them *)

Module JSON.

Local Set Warnings "-register-all".
Inductive JSValue :=
  | JNull
  | JBool (b : bool)
  | JNum (n : Z)
  | JStr (s : list ascii)
  | JArr (xs : list JSValue)
  | JObj (fields : list (list ascii * JSValue)).

End JSON.

(** ** On-device provider ([AppleAIProvider.chat], part_008 lines 112-265)

    The provider is given the messages already converted by
    [convertMessages] (role and text pairs); temperature and token limits
    are passed through unchanged and left out, as is the process-wide
    usage counter. *)

Module Apple.
Import ModelOutput JSON.

Fixpoint str_eqb (a b : list ascii) : bool :=
  match a, b with
  | [], [] => true
  | x :: a', y :: b' => Ascii.eqb x y && str_eqb a' b'
  | _, _ => false
  end.

(** A JSON schema object, as its list of properties in order. *)
Definition JSONObject := list (list ascii * JSValue).

(** [ToolDefinition]: [{ type, function: { name, description, parameters } }]. *)
Record ToolFunction := mkToolFunction {
  fn_name : list ascii; fn_description : list ascii; fn_parameters : JSONObject }.

Record ToolDefinition := mkToolDef {
  def_type : list ascii; def_function : ToolFunction }.

Record AppleTool := mkAppleTool {
  at_name : list ascii; at_description : list ascii; at_jsonSchema : JSONObject }.

Record AppleOptions := mkAppleOptions {
  ao_messages : list (list ascii * list ascii);
  ao_tools : option (list AppleTool);
  ao_stream : bool }.

Record SdkToolCall := mkSdkToolCall {
  stc_id : option (list ascii); stc_name : list ascii; stc_arguments : list ascii }.

Record SdkResponse := mkSdkResponse {
  text : list ascii; sdkToolCalls : option (list SdkToolCall) }.

(** [ChatOptions]: the tools and whether an [onChunk] callback is given. *)
Record ChatOptions := mkChatOptions {
  co_tools : option (list ToolDefinition); co_onChunk : bool }.

(** Identifier of a returned tool call: the SDK's, or [call_<n>]. *)
Inductive CallId := SdkId (id : list ascii) | Generated (n : nat).

Record OutCall := mkOutCall {
  oc_id : CallId; oc_name : list ascii; oc_arguments : list ascii }.

Record ChatResponse := mkChatResponse {
  resp_content : option (list ascii);
  resp_toolCalls : option (list OutCall) }.

(** The SDK as seen by the provider: whether it loads, its non-streaming
    and its streaming [chat] (given the number of earlier SDK calls of the
    same [chat] invocation and the options), and [JSON.parse]. *)
Record AppleEnv := mkAppleEnv {
  jsonParses : list ascii -> bool;
  sdkAvailable : bool;
  sdkChat : nat -> AppleOptions -> SdkResponse + list ascii;
  sdkStream : nat -> AppleOptions -> list (list ascii) * option (list ascii) }.

Definition MAX_TOOLS : nat := 10.

Definition convertTools (tools : list ToolDefinition) : list AppleTool :=
  map (fun tool => mkAppleTool (fn_name (def_function tool)) (fn_description (def_function tool))
                               (fn_parameters (def_function tool))) tools.

(** [a || b] on strings. *)
Definition str_or (a b : list ascii) : list ascii := match a with [] => b | _ => a end.

Section Provider.
Variable E : AppleEnv.

Definition createResponse (rawContent : list ascii) (tcs : option (list SdkToolCall))
    : ChatResponse :=
  let parsed := parseModelOutput (jsonParses E) rawContent in
  let content := str_or (ModelOutput.content parsed) rawContent in
  let native :=
    match tcs with
    | Some l =>
        (fix go (i : nat) (l : list SdkToolCall) : list OutCall :=
           match l with
           | [] => []
           | tc :: l' =>
               mkOutCall (match stc_id tc with Some id => SdkId id | None => Generated i end)
                 (stc_name tc) (stc_arguments tc) :: go (S i) l'
           end) 0 l
    | None => []
    end in
  let inline :=
    (fix go (i : nat) (l : list (list ascii * list ascii)) : list OutCall :=
       match l with
       | [] => []
       | (n, a) :: l' => mkOutCall (Generated i) n a :: go (S i) l'
       end) (length native) (ModelOutput.toolCalls parsed) in
  let allToolCalls := native ++ inline in
  match allToolCalls with
  | [] => mkChatResponse (Some content) None
  | _ => mkChatResponse (match content with [] => None | _ => Some content end)
           (Some allToolCalls)
  end.

(** The [catch] of [chat]: SDK deserialisation errors are rewrapped. *)
Definition wrapError (message : list ascii) : list ascii :=
  if includes message (str "deserialize") || includes message (str "Generable")
  then str "Apple Intelligence response error: " ++ message
       ++ str ". This may indicate the model couldn't process the request properly."
  else message.

Definition noToolCalls (r : SdkResponse) : bool :=
  match sdkToolCalls r with None | Some [] => true | Some (_ :: _) => false end.

(** [appleTools]: at most [MAX_TOOLS] of the supplied tools. *)
Definition appleToolsOf (options : ChatOptions) : option (list AppleTool) :=
  match co_tools options with
  | Some ts => if 0 <? length ts then Some (convertTools (firstn MAX_TOOLS ts)) else None
  | None => None
  end.

Definition useStreamingOf (options : ChatOptions) : bool :=
  co_onChunk options && (match appleToolsOf options with None => true | Some _ => false end).

(** [chat(messages, options)]: the response or the thrown message, and
    the options of every SDK call, in order. *)
Definition chat (appleMessages : list (list ascii * list ascii)) (options : ChatOptions)
    : (ChatResponse + list ascii) * list AppleOptions :=
  if negb (sdkAvailable E) then (inr (str "Apple AI SDK not available"), [])
  else
  let appleTools := appleToolsOf options in
  let useStreaming := useStreamingOf options in
  if useStreaming then
    let o := mkAppleOptions appleMessages None true in
    let '(chunks, streamError) := sdkStream E 0 o in
    let fullContent := concat chunks in
    match streamError, fullContent with
    | Some e, [] => (inr (wrapError e), [o])
    | _, _ => (inl (createResponse fullContent None), [o])
    end
  else
    let o1 := mkAppleOptions appleMessages appleTools false in
    match sdkChat E 0 o1 with
    | inr e => (inr (wrapError e), [o1])
    | inl response =>
        if str_eqb (text response) (str "null") && noToolCalls response then
          let o2 := mkAppleOptions appleMessages None false in
          match sdkChat E 1 o2 with
          | inr e => (inr (wrapError e), [o1; o2])
          | inl retried =>
              (inl (createResponse (text retried) (sdkToolCalls retried)), [o1; o2])
          end
        else (inl (createResponse (text response) (sdkToolCalls response)), [o1])
    end.

End Provider.

End Apple.

(** ** Tool registry ([src/src/tools/index.ts]) *)

Module Tools.
Export JSON.

(** A thrown value: an [Error] with its [message], or anything else with
    its [String(...)] conversion. *)
Inductive Thrown := ThrownError (message : list ascii) | ThrownOther (asString : list ascii).

Definition errorMessageOf (t : Thrown) : list ascii :=
  match t with ThrownError m => m | ThrownOther s => s end.

(** [AnyTool]: [description], the zod [parameters] schema (what zod's
    [z.toJSONSchema] makes of it, and its [parse], which returns the value
    or throws), the optional [priority] and [requiresConfirmation], and
    [execute] (a string result is [JStr]). *)
Record AnyTool := mkTool {
  tool_name : list ascii;
  tool_description : list ascii;
  tool_toJSONSchema : Apple.JSONObject;
  tool_parse : JSValue -> JSValue + Thrown;
  tool_priority : option nat;
  tool_requiresConfirmation : option bool;
  tool_execute : JSValue -> JSValue + Thrown }.

(** [zodToJsonSchema] (tools/base.ts, part_004 lines 236-243): the
    object of [z.toJSONSchema(schema)] without its [$schema] and
    [additionalProperties] properties ([const { $schema,
    additionalProperties, ...rest } = jsonSchema]). *)
Definition zodToJsonSchema (jsonSchema : Apple.JSONObject) : Apple.JSONObject :=
  List.filter (fun kv => negb (Apple.str_eqb (fst kv) (str "$schema"))
                         && negb (Apple.str_eqb (fst kv) (str "additionalProperties")))
    jsonSchema.

(** [toolToDefinition] (tools/base.ts, part_004 lines 248-259). *)
Definition toolToDefinition (tool : AnyTool) : Apple.ToolDefinition :=
  let jsonSchema := zodToJsonSchema (tool_toJSONSchema tool) in
  Apple.mkToolDef (str "function")
    (Apple.mkToolFunction (tool_name tool) (tool_description tool) jsonSchema).

(** [private tools: Map<string, AnyTool>]: an association list in
    insertion order. *)
Definition Registry := list (list ascii * AnyTool).

Fixpoint map_get (m : Registry) (k : list ascii) : option AnyTool :=
  match m with
  | [] => None
  | (k', v) :: m' => if Apple.str_eqb k k' then Some v else map_get m' k
  end.

(** [Map.set]: an existing key keeps its position. *)
Fixpoint map_set (m : Registry) (k : list ascii) (v : AnyTool) : Registry :=
  match m with
  | [] => [(k, v)]
  | (k', v') :: m' => if Apple.str_eqb k k' then (k', v) :: m' else (k', v') :: map_set m' k v
  end.

Definition register (m : Registry) (tool : AnyTool) : Registry :=
  map_set m (tool_name tool) tool.

Definition values (m : Registry) : list AnyTool := map snd m.

Definition getDefinitions (m : Registry) : list Apple.ToolDefinition :=
  map toolToDefinition (values m).

Definition priorityOf (t : AnyTool) : nat :=
  match tool_priority t with Some p => p | None => 3 end.

(** [Array.prototype.sort] with [(a, b) => priorityA - priorityB]: the
    sort is stable, so it is the insertion sort below. *)
Fixpoint insert_by_priority (x : AnyTool) (l : list AnyTool) : list AnyTool :=
  match l with
  | [] => [x]
  | y :: l' => if priorityOf x <? priorityOf y then x :: y :: l'
               else y :: insert_by_priority x l'
  end.

Definition sort_by_priority (l : list AnyTool) : list AnyTool :=
  fold_left (fun acc x => insert_by_priority x acc) l [].

Definition getToolsSortedByPriority (m : Registry) : list AnyTool :=
  sort_by_priority (values m).

Definition getDefinitionsLimited (m : Registry) (maxTools : option nat)
    : list Apple.ToolDefinition :=
  match maxTools with
  | None => getDefinitions m
  | Some n => map toolToDefinition (firstn n (getToolsSortedByPriority m))
  end.

(** The content of a tool message: a string, or [JSON.stringify] of a
    value. *)
Inductive Content := Text (s : list ascii) | Stringified (v : JSValue).

Inductive ResultRole := tool.

Record ToolResult := mkToolResult {
  tool_call_id : list ascii; result_role : ResultRole;
  result_name : list ascii; result_content : Content }.

Definition errorContent (message : list ascii) : Content :=
  Stringified (JObj [(str "error", JStr message)]).

Section Execute.
(** [JSON.parse]: the value, or the [SyntaxError] it throws. *)
Variable jsonParse : list ascii -> JSValue + Thrown.

(** The body of the [try] block. *)
Definition tryExecute (t : AnyTool) (args : list ascii) : Content + Thrown :=
  match jsonParse args with
  | inr e => inr e
  | inl parsedArgs =>
      match tool_parse t parsedArgs with
      | inr e => inr e
      | inl validatedArgs =>
          match tool_execute t validatedArgs with
          | inr e => inr e
          | inl (JStr s) => inl (Text s)
          | inl v => inl (Stringified v)
          end
      end
  end.

Definition execute (m : Registry) (name args : list ascii) : ToolResult :=
  match map_get m name with
  | None =>
      mkToolResult [] tool name
        (errorContent (str "Tool " ++ [ascii_of_nat 34] ++ name ++ [ascii_of_nat 34]
                       ++ str " not found"))
  | Some t =>
      match tryExecute t args with
      | inl c => mkToolResult [] tool name c
      | inr e => mkToolResult [] tool name (errorContent (errorMessageOf e))
      end
  end.

End Execute.

Definition requiresConfirmation (m : Registry) (name : list ascii) : bool :=
  match map_get m name with
  | Some t => match tool_requiresConfirmation t with Some b => b | None => false end
  | None => false
  end.

End Tools.

(** ** Provider registry ([ProviderRegistry.setActiveProvider], part_008
    lines 524-541) *)

Module ProviderRegistry.

(** A registered provider object, by identity, with whether it defines the
    optional [shutdown] and [initialize] methods. *)
Record Provider := mkProvider {
  provider_uid : nat; hasShutdown : bool; hasInitialize : bool }.

Record ProviderStatus := mkStatus { available : bool; reason : string }.

(** The calls the registry makes to provider objects. *)
Inductive Event :=
  | EvCheckAvailability (p : Provider)
  | EvShutdown (p : Provider)
  | EvInitialize (p : Provider).

(** Outcomes of the provider methods: [checkAvailability] returns a
    status or throws, [shutdown] and [initialize] complete or throw. *)
Record ProviderBehaviour := mkBehaviour {
  checkAvailability : Provider -> ProviderStatus + string;
  shutdownOutcome : Provider -> option string;
  initializeOutcome : Provider -> option string }.

Record RegistryState := mkRegistry {
  providers : gmap string Provider;
  activeProvider : option Provider;
  calls : list Event }.

(** [setActiveProvider(id)]: [inl tt] or the thrown message, and the new
    state. *)
Definition setActiveProvider (B : ProviderBehaviour) (id : string) (s : RegistryState)
    : (unit + string) * RegistryState :=
  match providers s !! id with
  | None => (inr ("Provider not found: " ++ id)%string, s)
  | Some provider =>
      let s1 := mkRegistry (providers s) (activeProvider s)
                  (calls s ++ [EvCheckAvailability provider]) in
      match checkAvailability B provider with
      | inr e => (inr e, s1)
      | inl status =>
          if negb (available status) then
            (inr ("Provider not available: " ++ reason status)%string, s1)
          else
            let shut :=
              match activeProvider s1 with
              | Some prev =>
                  if hasShutdown prev then
                    (shutdownOutcome B prev,
                     mkRegistry (providers s1) (activeProvider s1)
                       (calls s1 ++ [EvShutdown prev]))
                  else (None, s1)
              | None => (None, s1)
              end in
            match shut with
            | (Some e, s2) => (inr e, s2)
            | (None, s2) =>
                let s3 := mkRegistry (providers s2) (Some provider) (calls s2) in
                if hasInitialize provider then
                  let s4 := mkRegistry (providers s3) (activeProvider s3)
                              (calls s3 ++ [EvInitialize provider]) in
                  match initializeOutcome B provider with
                  | Some e => (inr e, s4)
                  | None => (inl tt, s4)
                  end
                else (inl tt, s3)
            end
      end
  end.

End ProviderRegistry.

(** ** Local model cache ([modelCache], [LocalLlamaProvider.initialize] and
    [shutdown] in local-llama.ts)

    Only the cache bookkeeping is modelled: the SDK is taken to load, and
    contexts and sessions, which are per instance, are left out. *)

Module LocalLlama.

(** A provider instance: its configured [modelPath] and its [model]
    field (the handle of a loaded model, or [null]). *)
Record Instance := mkInstance { modelPath : string; model : option nat }.

Record CacheEntry := mkEntry { entry_model : nat; refCount : Z }.

(** The module-level [modelCache], the instances, and the number of
    [loadModel] calls so far (which also names the next model handle). *)
Record World := mkWorld {
  modelCache : gmap string CacheEntry;
  instances : list Instance;
  loads : nat }.

Definition set_instance (w : World) (i : nat) (inst : Instance) : list Instance :=
  <[i := inst]> (instances w).

(** [initialize()] on instance [i]. *)
Definition initialize (i : nat) (w : World) : World :=
  match instances w !! i with
  | None => w
  | Some inst =>
      match modelCache w !! modelPath inst with
      | Some cached =>
          mkWorld (<[modelPath inst := mkEntry (entry_model cached) (refCount cached + 1)]>
                     (modelCache w))
                  (set_instance w i (mkInstance (modelPath inst) (Some (entry_model cached))))
                  (loads w)
      | None =>
          let m := loads w in
          mkWorld (<[modelPath inst := mkEntry m 1]> (modelCache w))
                  (set_instance w i (mkInstance (modelPath inst) (Some m)))
                  (S (loads w))
      end
  end.

(** [shutdown()] on instance [i]. *)
Definition shutdown (i : nat) (w : World) : World :=
  match instances w !! i with
  | None => w
  | Some inst =>
      let cache :=
        match model inst with
        | Some _ =>
            match modelCache w !! modelPath inst with
            | Some cached =>
                let rc := (refCount cached - 1)%Z in
                if (rc <=? 0)%Z then delete (modelPath inst) (modelCache w)
                else <[modelPath inst := mkEntry (entry_model cached) rc]> (modelCache w)
            | None => modelCache w
            end
        | None => modelCache w
        end in
      mkWorld cache (set_instance w i (mkInstance (modelPath inst) None)) (loads w)
  end.

Inductive Op := Init (i : nat) | Shutdown (i : nat).

Definition step (w : World) (op : Op) : World :=
  match op with Init i => initialize i w | Shutdown i => shutdown i w end.

Definition run_ops (w : World) (ops : list Op) : World := fold_left step ops w.

Definition refCountOf (w : World) (path : string) : Z :=
  match modelCache w !! path with Some e => refCount e | None => 0%Z end.

(** Instances whose [model] field holds a model of [path]. *)
Definition holders (w : World) (path : string) : nat :=
  length (List.filter (fun inst => String.eqb (modelPath inst) path
                                   && match model inst with Some _ => true | None => false end)
                      (instances w)).

End LocalLlama.

(** ** Swift agent: session helpers ([Agent.reset], [getHistory],
    [loadMessages], [getMessagesForSave], part_000 lines 238-259) *)

Module SwiftSession.
Import Swift.

(** [messages.first { $0.role == .system }]. *)
Definition firstSystem (ms : list Message) : option Message := List.find is_system ms.

Definition reset (ms : list Message) : list Message :=
  match firstSystem ms with Some m => [m] | None => [] end.

Definition getHistory (ms : list Message) : list Message := ms.

Definition loadMessages (ms savedMessages : list Message) : list Message :=
  let filtered := List.filter (fun m => negb (is_system m)) savedMessages in
  match firstSystem ms with Some m => [m] | None => [] end ++ filtered.

Definition getMessagesForSave (ms : list Message) : list Message :=
  List.filter (fun m => negb (is_system m)) ms.

End SwiftSession.

(** ** Tool registry: the remaining [ToolRegistry] methods
    (src/src/tools/index.ts lines 52-116, 155-193) *)

Module ToolsMore.
Import Tools.

(** [get(name)]. *)
Definition get (m : Registry) (name : list ascii) : option AnyTool := map_get m name.

(** [getToolNames()]: the keys in insertion order. *)
Definition getToolNames (m : Registry) : list (list ascii) := map fst m.

(** [registerMany(tools)]. *)
Definition registerMany (m : Registry) (tools : list AnyTool) : Registry :=
  fold_left register tools m.

(** [unregister(name)]: [Map.delete]. *)
Definition unregister (m : Registry) (name : list ascii) : Registry :=
  List.filter (fun kv => negb (Apple.str_eqb name (fst kv))) m.

(** [getCoreDefinitions()]: tools whose [priority === 1]. *)
Definition getCoreDefinitions (m : Registry) : list Apple.ToolDefinition :=
  map toolToDefinition
    (List.filter (fun t => match tool_priority t with Some 1 => true | _ => false end)
       (values m)).

(** [getImportantDefinitions()]: tools whose [(priority ?? 3) <= 2]. *)
Definition getImportantDefinitions (m : Registry) : list Apple.ToolDefinition :=
  map toolToDefinition (List.filter (fun t => priorityOf t <=? 2) (values m)).

End ToolsMore.

(** ** [OpenAIProvider] (lmstudio.ts, lines 366-572)

    The retry loop of [chat] and the SSE parsing of [processStream].
    [doChat] is the outcome of each HTTP attempt, indexed by the attempt
    number; the usage accounting is not modelled. *)

Module OpenAI.
Import Tools.

Definition maxRetries : nat := 3.
Definition baseDelayMs : Z := 1000.
Definition maxDelayMs : Z := 10000.

(** [Math.min(baseDelayMs * Math.pow(2, attempt), maxDelayMs)]; the double
    product is exact up to 2^1023 and [Infinity] beyond, where the minimum
    is [maxDelayMs] in both readings. *)
Definition getRetryDelay (attempt : nat) : Z :=
  Z.min (baseDelayMs * 2 ^ Z.of_nat attempt) maxDelayMs.

Definition lower_ascii (c : ascii) : ascii :=
  let n := nat_of_ascii c in
  if (65 <=? n) && (n <=? 90) then ascii_of_nat (n + 32) else c.

(** [String.prototype.toLowerCase] on the ASCII range. *)
Definition toLowerCase (s : list ascii) : list ascii := map lower_ascii s.

Definition isRetryableError (error : Thrown) : bool :=
  match error with
  | ThrownError msg =>
      let message := toLowerCase msg in
      includes message (str "rate limit") || includes message (str "overloaded")
  | ThrownOther _ => false
  end.

(** [error instanceof Error ? error : new Error(String(error))]. *)
Definition toError (error : Thrown) : Thrown :=
  match error with
  | ThrownError m => ThrownError m
  | ThrownOther s => ThrownError s
  end.

Inductive ChatEvent := DoChat (attempt : nat) | Sleep (ms : Z).

Section Chat.
Context {Resp : Type}.
Variable doChat : nat -> Resp + Thrown.

(** The [for (let attempt = 0; attempt <= maxRetries; attempt++)] loop:
    the outcome ([inr None] is [throw undefined]) and the calls and sleeps
    it performs, in order. *)
Fixpoint chatLoop (fuel attempt : nat) (lastError : option Thrown)
    : (Resp + option Thrown) * list ChatEvent :=
  match fuel with
  | 0 => (inr lastError, [])
  | S fuel' =>
    if attempt <=? maxRetries then
      match doChat attempt with
      | inl r => (inl r, [DoChat attempt])
      | inr error =>
          let lastError := toError error in
          if (attempt <? maxRetries) && isRetryableError error then
            let '(res, evs) := chatLoop fuel' (S attempt) (Some lastError) in
            (res, DoChat attempt :: Sleep (getRetryDelay attempt) :: evs)
          else (inr (Some lastError), [DoChat attempt])
      end
    else (inr lastError, [])
  end.

Definition chat : (Resp + option Thrown) * list ChatEvent :=
  chatLoop (S maxRetries) 0 None.

End Chat.

(** *** [processStream] *)

(** A decoded [delta.tool_calls] entry: [index], [id], [function.name],
    [function.arguments] ([None] when absent). *)
Record TCDelta := mkTCDelta {
  tc_index : nat;
  tc_id : option (list ascii);
  tc_name : option (list ascii);
  tc_arguments : option (list ascii)
}.

(** [data.choices[0].delta]: its [content] and [tool_calls]. *)
Record Delta := mkDelta {
  d_content : option (list ascii);
  d_tool_calls : option (list TCDelta)
}.

(** A given id, or [`call_${Date.now()}_${tc.index}`] (the timestamp is
    not modelled). *)
Inductive OId := GivenId (id : list ascii) | GeneratedId (index : nat).

Record OToolCall := mkOCall {
  oc_id : OId;
  oc_name : list ascii;
  oc_arguments : list ascii
}.

(** [toolCallsMap]: a [Map<number, ...>] keeps insertion order. *)
Definition ToolCallsMap := list (nat * OToolCall).

Fixpoint tcm_get (m : ToolCallsMap) (i : nat) : option OToolCall :=
  match m with
  | [] => None
  | (k, v) :: m' => if k =? i then Some v else tcm_get m' i
  end.

(** [existing.function.arguments += a] on the entry of key [i]. *)
Fixpoint tcm_append (m : ToolCallsMap) (i : nat) (a : list ascii) : ToolCallsMap :=
  match m with
  | [] => []
  | (k, v) :: m' =>
      if k =? i then (k, mkOCall (oc_id v) (oc_name v) (oc_arguments v ++ a)) :: m'
      else (k, v) :: tcm_append m' i a
  end.

(** [s || ""] for an optional string. *)
Definition or_empty (s : option (list ascii)) : list ascii :=
  match s with Some x => x | None => [] end.

Definition processToolDelta (m : ToolCallsMap) (tc : TCDelta) : ToolCallsMap :=
  match tcm_get m (tc_index tc) with
  | Some _ => tcm_append m (tc_index tc) (or_empty (tc_arguments tc))
  | None =>
      m ++ [(tc_index tc,
             mkOCall (match tc_id tc with
                      | Some ((_ :: _) as id) => GivenId id
                      | _ => GeneratedId (tc_index tc)
                      end)
                     (or_empty (tc_name tc)) (or_empty (tc_arguments tc)))]
  end.

(** The loop state: [content], [toolCallsMap], [buffer] and the strings
    passed to [onChunk]. *)
Record SState := mkSState {
  s_content : list ascii;
  s_map : ToolCallsMap;
  s_buffer : list ascii;
  s_chunks : list (list ascii)
}.

Definition initSState : SState := mkSState [] [] [] [].

(** [buffer.split("\n")]. *)
Fixpoint split_nl (s : list ascii) : list (list ascii) :=
  match s with
  | [] => [[]]
  | c :: s' =>
      let r := split_nl s' in
      if Ascii.eqb c "010"%char then [] :: r
      else (c :: hd [] r) :: tl r
  end.

Record OResponse := mkOResponse {
  r_content : option (list ascii);
  r_tool_calls : option (list OToolCall)
}.

Section Stream.

(** [JSON.parse(line.slice(6))] followed by [data.choices?.[0]?.delta]:
    [None] when the parse throws or there is no delta. *)
Variable parseDelta : list ascii -> option Delta.

Definition processLine (st : SState) (line : list ascii) : SState :=
  if negb (is_prefix (str "data: ") line) || Apple.str_eqb line (str "data: [DONE]")
  then st
  else
    match parseDelta (skipn 6 line) with
    | None => st
    | Some delta =>
        let st1 :=
          match d_content delta with
          | Some ((_ :: _) as c) =>
              mkSState (s_content st ++ c) (s_map st) (s_buffer st) (s_chunks st ++ [c])
          | _ => st
          end in
        match d_tool_calls delta with
        | Some tcs =>
            mkSState (s_content st1) (fold_left processToolDelta tcs (s_map st1))
                     (s_buffer st1) (s_chunks st1)
        | None => st1
        end
    end.

(** One [reader.read()] that returned [value] (already decoded). *)
Definition processRead (st : SState) (value : list ascii) : SState :=
  let lines := split_nl (s_buffer st ++ value) in
  let st' := mkSState (s_content st) (s_map st) (List.last lines []) (s_chunks st) in
  fold_left processLine (List.removelast lines) st'.

Definition finishStream (st : SState) : OResponse :=
  let toolCalls := map snd (s_map st) in
  mkOResponse (match s_content st with [] => None | c => Some c end)
              (match toolCalls with [] => None | _ => Some toolCalls end).

(** [processStream]: the response and the strings passed to [onChunk];
    [None] is a response without a body. *)
Definition processStream (body : option (list (list ascii)))
    : (OResponse * list (list ascii)) + Thrown :=
  match body with
  | None => inr (ThrownError (str "No response body"))
  | Some reads =>
      let st := fold_left processRead reads initSState in
      inl (finishStream st, s_chunks st)
  end.

End Stream.

End OpenAI.

(** ** Provider detection and the active provider ([detectProvider],
    [getActiveProvider] and [shutdown] of [ProviderRegistry], part_008
    lines 461-520 and 577-582) *)

Module ProviderRegistryMore.
Import ProviderRegistry.

Definition logCall (ev : Event) (s : RegistryState) : RegistryState :=
  mkRegistry (providers s) (activeProvider s) (calls s ++ [ev]).

Definition priorityOrder : list string :=
  ["openrouter"; "openai"; "anthropic"; "apple-ai"; "lmstudio"; "local-llama"]%string.

(** The [for (const id of priorityOrder)] loop: a throwing check is
    skipped. *)
Fixpoint tryInOrder (B : ProviderBehaviour) (ids : list string) (s : RegistryState)
    : option (Provider * ProviderStatus) * RegistryState :=
  match ids with
  | [] => (None, s)
  | id :: ids' =>
      match providers s !! id with
      | None => tryInOrder B ids' s
      | Some provider =>
          let s1 := logCall (EvCheckAvailability provider) s in
          match checkAvailability B provider with
          | inr _ => tryInOrder B ids' s1
          | inl status =>
              if available status then (Some (provider, status), s1)
              else tryInOrder B ids' s1
          end
      end
  end.

(** [detectProvider()] with [config.preferredProvider]; a throw of the
    preferred provider's check is not caught. *)
Definition detectProvider (B : ProviderBehaviour) (preferredProvider : option string)
    (s : RegistryState) : (option (Provider * ProviderStatus) + string) * RegistryState :=
  let fallback s' := let '(r, s'') := tryInOrder B priorityOrder s' in (inl r, s'') in
  match preferredProvider with
  | Some pid =>
      if String.eqb pid "" then fallback s else
      match providers s !! pid with
      | Some preferred =>
          let s1 := logCall (EvCheckAvailability preferred) s in
          match checkAvailability B preferred with
          | inr e => (inr e, s1)
          | inl status =>
              if available status then (inl (Some (preferred, status)), s1)
              else fallback s1
          end
      | None => fallback s
      end
  | None => fallback s
  end.

Definition noProviderMessage : string :=
  "No LLM provider available. Please configure an API key or start a local LLM server.".

(** [getActiveProvider()]: the active provider is set before
    [initialize?.()] runs. *)
Definition getActiveProvider (B : ProviderBehaviour) (preferredProvider : option string)
    (s : RegistryState) : (Provider + string) * RegistryState :=
  match activeProvider s with
  | Some p => (inl p, s)
  | None =>
      match detectProvider B preferredProvider s with
      | (inr e, s1) => (inr e, s1)
      | (inl None, s1) => (inr noProviderMessage, s1)
      | (inl (Some (provider, _)), s1) =>
          let s2 := mkRegistry (providers s1) (Some provider) (calls s1) in
          if hasInitialize provider then
            let s3 := logCall (EvInitialize provider) s2 in
            match initializeOutcome B provider with
            | Some e => (inr e, s3)
            | None => (inl provider, s3)
            end
          else (inl provider, s2)
      end
  end.

(** [shutdown()]: a throwing [shutdown] of the active provider leaves it
    active. *)
Definition shutdown (B : ProviderBehaviour) (s : RegistryState)
    : (unit + string) * RegistryState :=
  let clear s' := mkRegistry (providers s') None (calls s') in
  match activeProvider s with
  | Some p =>
      if hasShutdown p then
        let s1 := logCall (EvShutdown p) s in
        match shutdownOutcome B p with
        | Some e => (inr e, s1)
        | None => (inl tt, clear s1)
        end
      else (inl tt, clear s)
  | None => (inl tt, clear s)
  end.

End ProviderRegistryMore.

(** ** Provider-side message conversion ([AppleAIProvider.convertMessages],
    part_008 lines 268-306; [LocalLlamaProvider.buildPrompt],
    local-llama.ts lines 301-330)

    The provider [Message] type ([../types.ts]) is not part of the
    sources; it is modelled from its uses: a role, a [content] that may
    be [null], optional [tool_calls] and an optional [name]. *)

Module ProviderMessages.

Inductive TRole := TSystem | TUser | TAssistant | TTool.

Record TToolCall := mkTToolCall {
  ttc_id : list ascii; ttc_name : list ascii; ttc_arguments : list ascii }.

Record TMessage := mkTMessage {
  t_role : TRole;
  t_content : option (list ascii);
  t_tool_calls : option (list TToolCall);
  t_name : option (list ascii) }.

(** [msg.content || ""]. *)
Definition contentOr (m : TMessage) : list ascii :=
  match t_content m with Some c => c | None => [] end.

(** [msg.tool_calls && msg.tool_calls.length > 0]. *)
Definition hasToolCalls (m : TMessage) : bool :=
  match t_tool_calls m with Some (_ :: _) => true | _ => false end.

Definition toolCallsOf (m : TMessage) : list TToolCall :=
  match t_tool_calls m with Some l => l | None => [] end.

(** [Array.prototype.join(sep)]. *)
Fixpoint join (sep : list ascii) (l : list (list ascii)) : list ascii :=
  match l with
  | [] => []
  | [x] => x
  | x :: l' => x ++ sep ++ join sep l'
  end.

Fixpoint uint_to_str (d : Decimal.uint) : list ascii :=
  match d with
  | Decimal.Nil => []
  | Decimal.D0 d => "0"%char :: uint_to_str d
  | Decimal.D1 d => "1"%char :: uint_to_str d
  | Decimal.D2 d => "2"%char :: uint_to_str d
  | Decimal.D3 d => "3"%char :: uint_to_str d
  | Decimal.D4 d => "4"%char :: uint_to_str d
  | Decimal.D5 d => "5"%char :: uint_to_str d
  | Decimal.D6 d => "6"%char :: uint_to_str d
  | Decimal.D7 d => "7"%char :: uint_to_str d
  | Decimal.D8 d => "8"%char :: uint_to_str d
  | Decimal.D9 d => "9"%char :: uint_to_str d
  end.

(** [`${n}`] for a non-negative integer. *)
Definition nat_to_str (n : nat) : list ascii := uint_to_str (Nat.to_uint n).

Definition nl : list ascii := ["010"%char].

(** *** [AppleAIProvider.convertMessages] *)

Definition MAX_TOOL_RESULT_CHARS : nat := 1500.

Definition truncateToolContent (toolContent : list ascii) : list ascii :=
  if MAX_TOOL_RESULT_CHARS <? length toolContent then
    firstn MAX_TOOL_RESULT_CHARS toolContent ++
      nl ++ str "... [truncated, " ++ nat_to_str (length toolContent - MAX_TOOL_RESULT_CHARS)
      ++ str " chars omitted]"
  else toolContent.

(** The body of the [for (const msg of messages)] loop. *)
Definition convertStep (result : list (list ascii * list ascii)) (msg : TMessage)
    : list (list ascii * list ascii) :=
       match t_role msg with
       | TSystem => result ++ [(str "system", contentOr msg)]
       | TUser => result ++ [(str "user", contentOr msg)]
       | TAssistant =>
           if hasToolCalls msg then
             let toolInfo :=
               join nl (map (fun tc => str "[Calling tool: " ++ ttc_name tc ++
                                       str " with args: " ++ ttc_arguments tc ++ str "]")
                            (toolCallsOf msg)) in
             let content :=
               match t_content msg with
               | Some ((_ :: _) as c) => c ++ nl ++ toolInfo
               | _ => toolInfo
               end in
             result ++ [(str "assistant", content)]
           else
             match t_content msg with
             | Some ((_ :: _) as c) => result ++ [(str "assistant", c)]
             | _ => result
             end
       | TTool =>
           let toolName := match t_name msg with Some ((_ :: _) as n) => n | _ => str "tool" end in
           result ++ [(str "user", str "[Tool result from " ++ toolName ++ str "]: " ++
                                   truncateToolContent (contentOr msg))]
       end.

Definition convertMessages (messages : list TMessage) : list (list ascii * list ascii) :=
  fold_left convertStep messages [].

(** *** [LocalLlamaProvider.buildPrompt] *)

(** [`${msg.name}`]: an absent name prints as [undefined]. *)
Definition nameText (m : TMessage) : list ascii :=
  match t_name m with Some n => n | None => str "undefined" end.

(** The body of the loop over the messages, on [systemPrompt] and
    [conversationParts]. *)
Definition buildStep (acc : option (list ascii) * list (list ascii)) (msg : TMessage)
    : option (list ascii) * list (list ascii) :=
       let '(systemPrompt, conversationParts) := acc in
       match t_role msg with
       | TSystem =>
           (Some (match systemPrompt with
                  | Some ((_ :: _) as sp) => sp ++ nl ++ nl
                  | _ => []
                  end ++ contentOr msg), conversationParts)
       | TUser => (systemPrompt, conversationParts ++ [str "User: " ++ contentOr msg])
       | TAssistant =>
           if hasToolCalls msg then
             let toolInfo :=
               join (str " ") (map (fun tc => str "[Called: " ++ ttc_name tc ++ str "]")
                                   (toolCallsOf msg)) in
             (systemPrompt,
              conversationParts ++ [str "Assistant: " ++ contentOr msg ++ str " " ++ toolInfo])
           else (systemPrompt, conversationParts ++ [str "Assistant: " ++ contentOr msg])
       | TTool =>
           (systemPrompt,
            conversationParts ++ [str "Tool (" ++ nameText msg ++ str "): " ++ contentOr msg])
       end.

Definition buildPromptLoop (messages : list TMessage)
    : option (list ascii) * list (list ascii) :=
  fold_left buildStep messages (None, []).

Definition buildPrompt (messages : list TMessage) : option (list ascii) * list ascii :=
  let '(systemPrompt, conversationParts) := buildPromptLoop messages in
  (systemPrompt, join (nl ++ nl) conversationParts).

End ProviderMessages.

(* ================================================================== *)
(** * Proofs *)

(** ** Lemmas on the string primitives *)

Lemma is_prefix_spec (pat s : list ascii) :
  is_prefix pat s = true <-> exists r, s = pat ++ r.
Proof.
  revert s; induction pat as [|a pat IH]; intros [|b s]; simpl.
  - split; eauto.
  - split; eauto.
  - split; [discriminate | intros [r Hr]; discriminate].
  - rewrite andb_true_iff, IH. split.
    + intros [Hab [r ->]]. apply Ascii.eqb_eq in Hab as ->. eauto.
    + intros [r Hr]. injection Hr as -> ->. split; [apply Ascii.eqb_refl | eauto].
Qed.

Lemma is_prefix_trans (a b c : list ascii) :
  is_prefix a b = true -> is_prefix b c = true -> is_prefix a c = true.
Proof.
  rewrite !is_prefix_spec. intros [r1 ->] [r2 ->]. exists (r1 ++ r2).
  by rewrite app_assoc.
Qed.

Lemma is_prefix_refl (a : list ascii) : is_prefix a a = true.
Proof. apply is_prefix_spec. exists []. by rewrite app_nil_r. Qed.

Lemma search_some (pat s : list ascii) (pos k : nat) :
  search pat s pos = Some k ->
  pos <= k /\ is_prefix pat (skipn (k - pos) s) = true.
Proof.
  revert pos; induction s as [|c s IH]; intros pos H; simpl in H.
  - destruct (is_prefix pat []) eqn:E; [|discriminate].
    injection H as <-. rewrite Nat.sub_diag. simpl. split; [lia | exact E].
  - destruct (is_prefix pat (c :: s)) eqn:E.
    + injection H as <-. rewrite Nat.sub_diag. simpl. split; [lia | exact E].
    + destruct (IH _ H) as [Hle Hp]. split; [lia|].
      replace (k - pos) with (S (k - S pos)) by lia. exact Hp.
Qed.

Lemma search_complete (pat s : list ascii) (pos k : nat) :
  is_prefix pat (skipn k s) = true -> exists k', search pat s pos = Some k'.
Proof.
  revert pos k; induction s as [|c s IH]; intros pos k H; simpl.
  - rewrite skipn_nil in H. rewrite H. eauto.
  - destruct (is_prefix pat (c :: s)) eqn:E0; [eauto|].
    destruct k as [|k]; simpl in H.
    + rewrite H in E0. discriminate.
    + eapply IH. exact H.
Qed.

(** ** The streaming normaliser *)

Module NormalizerFacts.
Import Normalizer.

Lemma is_prefix_length (a b : list ascii) :
  is_prefix a b = true -> length a <= length b.
Proof. rewrite is_prefix_spec. intros [r ->]. rewrite length_app. lia. Qed.

Lemma is_prefix_nil_r (a : list ascii) : is_prefix a [] = true -> a = [].
Proof. destruct a; simpl; [done | discriminate]. Qed.

(** One step of [processChunk] emits exactly the part of the extracted
    content beyond the emitted-length cursor. *)
Lemma processChunk_emits (p : Parser) (c : list ascii) :
  emittedLength p = length (currentContent (buffer p)) ->
  is_prefix (currentContent (buffer p)) (currentContent (buffer p ++ c)) = true ->
  processChunk p c =
    (skipn (emittedLength p) (currentContent (buffer p ++ c)),
     mkParser (buffer p ++ c) (length (currentContent (buffer p ++ c)))).
Proof.
  intros He Hp. unfold processChunk.
  remember (currentContent (buffer p)) as c0 eqn:Hc0. clear Hc0.
  unfold currentContent in *.
  destruct (indexOf (buffer p ++ c) finalMarker 0) as [fi|].
  - set (cur := slice _ _ _) in *.
    destruct (emittedLength p <? length cur) eqn:Hlt.
    + f_equal. unfold slice at 1. apply firstn_all2.
      rewrite length_skipn. lia.
    + apply Nat.ltb_ge in Hlt. apply is_prefix_length in Hp.
      assert (emittedLength p = length cur) as Heq by lia.
      rewrite Heq, skipn_all. reflexivity.
  - apply is_prefix_nil_r in Hp. rewrite Hp in He. simpl in He.
    rewrite He. reflexivity.
Qed.

Lemma skipn_prefix_app (x y : list ascii) (e : nat) :
  e <= length x -> is_prefix x y = true ->
  skipn e x ++ skipn (length x) y = skipn e y.
Proof.
  intros Hle Hp. apply is_prefix_spec in Hp as [r ->].
  rewrite (skipn_app (length x) x r), (skipn_app e x r), Nat.sub_diag, skipn_all.
  replace (e - length x) with 0 by lia. reflexivity.
Qed.

(** Feeding any chunking of a buffer continuation emits the extracted
    content of the whole buffer beyond what was already emitted. *)
Lemma feed_emits (chunks : list (list ascii)) (p : Parser) (r : list ascii) :
  monotone_on (buffer p ++ concat chunks ++ r) ->
  emittedLength p = length (currentContent (buffer p)) ->
  fst (feed p chunks) =
    skipn (emittedLength p) (currentContent (buffer p ++ concat chunks)).
Proof.
  revert p; induction chunks as [|c cs IH]; intros p Hm He; simpl.
  - rewrite app_nil_r, He, skipn_all. reflexivity.
  - assert (H1 : is_prefix (currentContent (buffer p))
                           (currentContent (buffer p ++ c)) = true).
    { apply (Hm _ _ (concat cs ++ r)). simpl. by rewrite <- !app_assoc. }
    rewrite (processChunk_emits p c He H1).
    destruct (feed _ cs) as [rest p2] eqn:Hf. simpl.
    assert (Hrest := IH (mkParser (buffer p ++ c) (length (currentContent (buffer p ++ c))))).
    simpl in Hrest. rewrite Hf in Hrest. simpl in Hrest.
    rewrite Hrest; [| | reflexivity].
    + change (concat (c :: cs)) with (c ++ concat cs).
      rewrite (app_assoc (buffer p) c (concat cs)).
      apply skipn_prefix_app.
      * rewrite He. by apply is_prefix_length.
      * apply (Hm _ _ r). simpl. by rewrite <- !app_assoc.
    + intros x y z Hxyz. apply (Hm x y z). rewrite <- Hxyz. simpl.
      by rewrite <- !app_assoc.
Qed.

Lemma monotone_steps_sound (s : list ascii) :
  monotone_steps s = true -> monotone_on s.
Proof.
  unfold monotone_steps. rewrite forallb_forall. intros Hs.
  assert (Hchain : forall i d, i + d <= length s ->
    is_prefix (currentContent (firstn i s))
              (currentContent (firstn (i + d) s)) = true).
  { intros i d; induction d as [|d IHd]; intros Hle.
    - rewrite Nat.add_0_r. apply is_prefix_refl.
    - eapply is_prefix_trans; [apply IHd; lia|].
      replace (i + S d) with (S (i + d)) by lia.
      apply Hs. apply in_seq. lia. }
  intros p q r ->.
  assert (Hp : take (length p) (p ++ q ++ r) = p) by apply take_app_length.
  assert (Hpq : take (length p + length q) (p ++ q ++ r) = p ++ q).
  { rewrite app_assoc. apply take_app_length'. by rewrite length_app. }
  rewrite <- Hpq. rewrite <- Hp at 1. apply Hchain. rewrite !length_app. lia.
Qed.

Lemma is_prefix_app_r (a x y : list ascii) :
  is_prefix a x = true -> is_prefix a (x ++ y) = true.
Proof.
  rewrite !is_prefix_spec. intros [r ->]. exists (r ++ y). by rewrite app_assoc.
Qed.

(** A buffer that is a prefix of a text without ["<|channel|>"] never
    contains the final-channel marker. *)
Lemma no_final_marker (b t : list ascii) :
  includes (b ++ t) (str "<|channel|>") = false ->
  indexOf b finalMarker 0 = None.
Proof.
  intros Hinc. destruct (indexOf b finalMarker 0) as [k|] eqn:Hk; [|done].
  exfalso. unfold indexOf in Hk. simpl in Hk.
  apply search_some in Hk as [_ Hk]. rewrite Nat.sub_0_r in Hk.
  assert (Hc : is_prefix (str "<|channel|>") (skipn k (b ++ t)) = true).
  { rewrite skipn_app. apply is_prefix_app_r.
    eapply is_prefix_trans; [|exact Hk]. reflexivity. }
  destruct (search_complete _ (b ++ t) 0 k Hc) as [k' Hk'].
  unfold includes, indexOf in Hinc.
  change (skipn 0 (b ++ t)) with (b ++ t) in Hinc.
  change (Nat.min 0 (length (b ++ t))) with 0 in Hinc.
  rewrite Hk' in Hinc.
  discriminate.
Qed.

Lemma currentContent_no_marker (b t : list ascii) :
  includes (b ++ t) (str "<|channel|>") = false -> currentContent b = [].
Proof.
  intros H. unfold currentContent. by rewrite (no_final_marker b t H).
Qed.

End NormalizerFacts.

(** ** Claims on the normaliser *)

Module NormalizerClaims.
Import Normalizer NormalizerFacts.

(** C1: for every split of the sentinel example
    ["<|channel|>analysis<|message|>x<|end|><|start|>a<|channel|>final<|message|>Hello"]
    into chunks fed in order to a fresh parser, the concatenation of the
    strings returned by [processChunk] is exactly ["Hello"]. *)
Theorem C1_chunk_boundary_invariance (chunks : list (list ascii)) :
  concat chunks = sentinelExample -> emitted chunks = str "Hello".
Proof.
  intros Hc. unfold emitted.
  rewrite (feed_emits chunks newParser []).
  - simpl. rewrite Hc. vm_compute. reflexivity.
  - simpl. rewrite Hc, app_nil_r. apply monotone_steps_sound.
    vm_compute. reflexivity.
  - reflexivity.
Qed.

Lemma C1_chunk_boundary_invariance_witness :
  concat (map (fun c => [c]) sentinelExample) = sentinelExample /\
  emitted (map (fun c => [c]) sentinelExample) = str "Hello".
Proof.
  split; [vm_compute; reflexivity|].
  apply C1_chunk_boundary_invariance. vm_compute. reflexivity.
Defined.

(** C2 (as stated, refuted): the marker-free input ["Hi"] fed as one
    chunk emits nothing, not the raw input. *)
Lemma C2_passthrough_counterexample :
  includes (str "Hi") (str "<|channel|>") = false /\
  includes (str "Hi") (str "<|message|>") = false /\
  emitted [str "Hi"] <> str "Hi".
Proof. vm_compute. split; [reflexivity | split; [reflexivity | discriminate]]. Qed.

(** C2 (amended): for marker-free input, [processChunk] emits nothing
    for any chunking (the concatenation of emissions is empty), while the
    end-of-call [parseModelOutput] returns the raw text as content with no
    tool calls. *)
Theorem C2_passthrough_at_full_parse (raw : list ascii) (chunks : list (list ascii)) :
  includes raw (str "<|channel|>") = false ->
  includes raw (str "<|message|>") = false ->
  concat chunks = raw ->
  emitted chunks = [] /\
  forall jsonParses,
    ModelOutput.parseModelOutput jsonParses raw = ModelOutput.mkParsed raw [].
Proof.
  intros Hch Hmsg Hc. split.
  - unfold emitted. rewrite (feed_emits chunks newParser []).
    + simpl. rewrite (currentContent_no_marker (concat chunks) []).
      * reflexivity.
      * by rewrite app_nil_r, Hc.
    + intros p q r Hpqr. simpl in Hpqr. rewrite app_nil_r in Hpqr.
      rewrite (currentContent_no_marker p (q ++ r)),
              (currentContent_no_marker (p ++ q) r).
      * reflexivity.
      * by rewrite <- app_assoc, <- Hpqr, Hc.
      * by rewrite <- Hpqr, Hc.
    + reflexivity.
  - intros jp. unfold ModelOutput.parseModelOutput. by rewrite Hch, Hmsg.
Qed.

Lemma C2_passthrough_at_full_parse_witness :
  includes (str "Hi") (str "<|channel|>") = false /\
  includes (str "Hi") (str "<|message|>") = false /\
  concat [str "H"; str "i"] = str "Hi" /\
  (emitted [str "H"; str "i"] = [] /\
   forall jsonParses,
     ModelOutput.parseModelOutput jsonParses (str "Hi") = ModelOutput.mkParsed (str "Hi") []).
Proof.
  split; [vm_compute; reflexivity|]. split; [vm_compute; reflexivity|].
  split; [vm_compute; reflexivity|].
  apply C2_passthrough_at_full_parse; vm_compute; reflexivity.
Defined.

End NormalizerClaims.

(** ** History trimming *)

Module HistoryFacts.
Import Swift.

Lemma estimate_msgs_acc (ms : list Message) (a : Z) :
  fold_left (fun acc m => (acc + TokenBudget.estimate (content m))%Z) ms a =
  (a + TokenBudget.estimate_msgs ms)%Z.
Proof.
  unfold TokenBudget.estimate_msgs. revert a.
  induction ms as [|m ms IH]; intros a; simpl; [lia|].
  rewrite (IH (a + _)%Z), (IH (0 + _)%Z). lia.
Qed.

Lemma estimate_msgs_cons (m : Message) (ms : list Message) :
  TokenBudget.estimate_msgs (m :: ms) =
  (TokenBudget.estimate (content m) + TokenBudget.estimate_msgs ms)%Z.
Proof.
  unfold TokenBudget.estimate_msgs at 1. simpl. rewrite estimate_msgs_acc. lia.
Qed.

Section Shape.
Variable sysm : Message.
Hypothesis Hsys : is_system sysm = true.

(** The loop drops a prefix of the non-system messages, each drop taken
    while over budget with more than three messages, and stops under
    budget or at three messages. *)
Lemma trim_loop_drops (l : list Message) (fuel : nat) :
  Forall (fun m => is_system m = false) l -> length l <= fuel ->
  exists k,
    trim_loop fuel (sysm :: l) (TokenBudget.estimate_msgs l) = sysm :: skipn k l /\
    (forall j, j < k ->
       (TokenBudget.maxHistoryTokens < TokenBudget.estimate_msgs (skipn j l))%Z /\
       3 < S (length (skipn j l))) /\
    ((TokenBudget.estimate_msgs (skipn k l) <= TokenBudget.maxHistoryTokens)%Z \/
     S (length (skipn k l)) <= 3).
Proof.
  revert fuel; induction l as [|x xs IH]; intros fuel Hall Hlen.
  - exists 0. destruct fuel; simpl; (split; [reflexivity | split; [intros; lia | right; lia]]).
  - inversion Hall as [|? ? Hx Hxs]; subst.
    destruct fuel as [|fuel]; [simpl in Hlen; lia|].
    cbn [trim_loop].
    match goal with |- context [if ?c then _ else _] => destruct c eqn:Hc end.
    + apply andb_true_iff in Hc as [Hc1 Hc2].
      apply Z.ltb_lt in Hc1. apply Nat.ltb_lt in Hc2.
      assert (Hrm : remove_first_non_system (sysm :: x :: xs) = Some (x, sysm :: xs)).
      { cbn [remove_first_non_system]. rewrite Hsys, Hx. reflexivity. }
      rewrite Hrm.
      rewrite estimate_msgs_cons.
      replace (TokenBudget.estimate (content x) + TokenBudget.estimate_msgs xs
               - TokenBudget.estimate (content x))%Z
        with (TokenBudget.estimate_msgs xs) by lia.
      destruct (IH fuel Hxs) as [k [Hk [Hbefore Hstop]]]; [simpl in Hlen; lia|].
      exists (S k). split; [exact Hk|]. split; [|exact Hstop].
      intros [|j] Hj; simpl.
      * split; [exact Hc1 | simpl in Hc2; lia].
      * apply Hbefore. lia.
    + exists 0. split; [reflexivity|]. split; [intros; lia|].
      apply andb_false_iff in Hc as [Hc|Hc].
      * left. apply Z.ltb_ge in Hc. exact Hc.
      * right. apply Nat.ltb_ge in Hc. exact Hc.
Qed.

End Shape.

Lemma filter_shape (sysm : Message) (rest : list Message) :
  is_system sysm = true -> Forall (fun m => is_system m = false) rest ->
  List.filter (fun m => negb (is_system m)) (sysm :: rest) = rest.
Proof.
  intros Hs Hr. cbn [List.filter]. rewrite Hs. cbn [negb].
  induction Hr as [|m ms Hm Hms IH]; cbn [List.filter]; [reflexivity|].
  rewrite Hm. cbn [negb]. by rewrite IH.
Qed.

End HistoryFacts.

(** ** Claims on history trimming *)

Module HistoryClaims.
Import Swift HistoryFacts.

(** C3: a transcript of at most two messages is left unchanged; a
    transcript [system :: rest] (the shape [run] maintains: the system
    prompt first, no other system message) loses the oldest [k] non-system
    messages, each removed while the non-system estimate exceeded
    [maxHistoryTokens] and more than three messages remained, and the loop
    stops under budget or at three messages; so the system message and the
    most recent pair always survive and an under-budget transcript is
    unchanged. *)
Theorem C3_trim_history (sysm : Message) (rest : list Message) :
  (forall ms : list Message, length ms <= 2 -> trimHistoryIfNeeded ms = ms) /\
  (is_system sysm = true -> Forall (fun m => is_system m = false) rest ->
   (exists k,
      trimHistoryIfNeeded (sysm :: rest) = sysm :: skipn k rest /\
      (forall j, j < k ->
         (TokenBudget.maxHistoryTokens < TokenBudget.estimate_msgs (skipn j rest))%Z /\
         3 < length (sysm :: skipn j rest)) /\
      ((TokenBudget.estimate_msgs (skipn k rest) <= TokenBudget.maxHistoryTokens)%Z \/
       length (sysm :: skipn k rest) <= 3)) /\
   (forall pre u a, rest = pre ++ [u; a] ->
      exists pre', trimHistoryIfNeeded (sysm :: rest) = sysm :: pre' ++ [u; a]) /\
   ((TokenBudget.estimate_msgs rest <= TokenBudget.maxHistoryTokens)%Z ->
      trimHistoryIfNeeded (sysm :: rest) = sysm :: rest)).
Proof.
  split.
  { intros ms Hle. unfold trimHistoryIfNeeded.
    apply Nat.leb_le in Hle. by rewrite Hle. }
  intros Hs Hr.
  assert (Hmain : exists k,
      trimHistoryIfNeeded (sysm :: rest) = sysm :: skipn k rest /\
      (forall j, j < k ->
         (TokenBudget.maxHistoryTokens < TokenBudget.estimate_msgs (skipn j rest))%Z /\
         3 < length (sysm :: skipn j rest)) /\
      ((TokenBudget.estimate_msgs (skipn k rest) <= TokenBudget.maxHistoryTokens)%Z \/
       length (sysm :: skipn k rest) <= 3)).
  { unfold trimHistoryIfNeeded.
    destruct (length (sysm :: rest) <=? 2) eqn:Hle.
    - exists 0. apply Nat.leb_le in Hle. rewrite drop_0. simpl in *.
      split; [reflexivity | split; [intros; lia | right; lia]].
    - rewrite (filter_shape sysm rest Hs Hr).
      destruct (trim_loop_drops sysm Hs rest (length (sysm :: rest)) Hr)
        as [k [Hk [Hb Hst]]]; [simpl; lia|].
      exists k. split; [exact Hk|]. split; [exact Hb | exact Hst]. }
  split; [exact Hmain|]. split.
  - intros pre u a ->. destruct Hmain as [k [Hk [Hb _]]]. rewrite Hk.
    assert (Hkle : k <= length pre).
    { destruct (Nat.le_gt_cases k (length pre)) as [H|H]; [exact H|].
      destruct (Hb (k - 1)) as [_ H3]; [lia|].
      simpl in H3. rewrite length_skipn, length_app in H3. simpl in H3. lia. }
    exists (skipn k pre). rewrite skipn_app. 
    replace (k - length pre) with 0 by lia. reflexivity.
  - intros Hbud. destruct Hmain as [k [Hk [Hb _]]]. rewrite Hk.
    destruct k as [|k]; [reflexivity|].
    destruct (Hb 0) as [H0 _]; [lia|]. rewrite drop_0 in H0. lia.
Qed.

End HistoryClaims.

Module HistoryWitness.
Import Swift HistoryClaims.

Definition bigText : SwiftString := repeat [97] (100 * 100).
Definition sysEx : Message := systemMsg (sw "You are Clarissa").
Definition restEx : list Message :=
  [userMsg bigText; assistantMsg bigText None; userMsg (sw "hi"); assistantMsg (sw "ok") None].

(** Both over-budget messages go; the last pair and the system prompt stay. *)
Example trim_restEx :
  trimHistoryIfNeeded (sysEx :: restEx) = sysEx :: skipn 2 restEx.
Proof. vm_compute. reflexivity. Qed.

Lemma C3_trim_history_witness :
  is_system sysEx = true /\
  Forall (fun m => is_system m = false) restEx /\
  (forall pre u a, restEx = pre ++ [u; a] ->
     exists pre', trimHistoryIfNeeded (sysEx :: restEx) = sysEx :: pre' ++ [u; a]).
Proof.
  assert (Hs : is_system sysEx = true) by reflexivity.
  assert (Hr : Forall (fun m => is_system m = false) restEx) by repeat constructor.
  split; [exact Hs|]. split; [exact Hr|].
  exact (proj1 (proj2 (proj2 (C3_trim_history sysEx restEx) Hs Hr))).
Defined.

End HistoryWitness.

(** ** The agent loop *)

Module AgentFacts.
Import Swift SwiftAgent.

Definition assistants (ms : list Message) : nat :=
  length (List.filter (fun m => role_eqb (role m) Assistant) ms).

Lemma backendCalls_app (a b : list Event) :
  backendCalls (a ++ b) = backendCalls a + backendCalls b.
Proof. unfold backendCalls. by rewrite List.filter_app, length_app. Qed.

Lemma assistants_app (a b : list Message) :
  assistants (a ++ b) = assistants a + assistants b.
Proof. unfold assistants. by rewrite List.filter_app, length_app. Qed.

Ltac agent_unfold :=
  unfold bind, emit, append, ret, get, throw, set_messages in *; simpl in *.

Lemma executeTool_effect (E : AgentEnv) (tc : ToolCall) (st : AgentState) :
  exists r evs,
    executeTool E tc st =
      (inl tt, mkState (messages st ++ [toolMsg (tc_id tc) (tc_name tc) r])
                       (events st ++ evs)) /\
    backendCalls evs = 0.
Proof.
  unfold executeTool. agent_unfold.
  destruct (toolExecute E (tc_name tc) (tc_arguments tc)) as [r|d]; simpl.
  - exists r, [EvExecute tc; EvToolResult (tc_name tc) r].
    rewrite <- !app_assoc. split; reflexivity.
  - exists (errorResult d), [EvExecute tc; EvToolResult (tc_name tc) (errorResult d)].
    rewrite <- !app_assoc. split; reflexivity.
Qed.

(** Every tool call appends exactly one tool-role message and never
    reaches the backend; the loop over tool calls never fails. *)
Lemma handleToolCall_effect (E : AgentEnv) (tc : ToolCall) (st : AgentState) :
  exists r evs,
    handleToolCall E tc st =
      (inl tt, mkState (messages st ++ [toolMsg (tc_id tc) (tc_name tc) r])
                       (events st ++ evs)) /\
    backendCalls evs = 0.
Proof.
  unfold handleToolCall.
  destruct (negb (autoApprove (config E)) && requiresConfirmation E (tc_name tc)).
  - destruct (onToolConfirmation E) as [confirm|].
    + agent_unfold. destruct (confirm tc); simpl.
      * destruct (executeTool_effect E tc
                    (mkState (messages st) ((events st ++ [EvToolCall tc]) ++ [EvConfirm tc])))
          as [r [evs [Hx Hb]]].
        rewrite Hx. simpl. exists r, ([EvToolCall tc; EvConfirm tc] ++ evs).
        rewrite <- !app_assoc. split; [reflexivity|]. by rewrite backendCalls_app, Hb.
      * exists rejectedPayload,
          [EvToolCall tc; EvConfirm tc; EvToolResult (tc_name tc) (sw "Rejected by user")].
        rewrite <- !app_assoc. split; reflexivity.
    + agent_unfold.
      destruct (executeTool_effect E tc (mkState (messages st) (events st ++ [EvToolCall tc])))
        as [r [evs [Hx Hb]]].
      rewrite Hx. simpl. exists r, ([EvToolCall tc] ++ evs).
      rewrite <- !app_assoc. split; [reflexivity|]. by rewrite backendCalls_app, Hb.
  - agent_unfold.
    destruct (executeTool_effect E tc (mkState (messages st) (events st ++ [EvToolCall tc])))
      as [r [evs [Hx Hb]]].
    rewrite Hx. simpl. exists r, ([EvToolCall tc] ++ evs).
    rewrite <- !app_assoc. split; [reflexivity|]. by rewrite backendCalls_app, Hb.
Qed.

Lemma handleToolCalls_effect (E : AgentEnv) (tcs : list ToolCall) (st : AgentState) :
  exists added evs,
    handleToolCalls E tcs st =
      (inl tt, mkState (messages st ++ added) (events st ++ evs)) /\
    assistants added = 0 /\ backendCalls evs = 0.
Proof.
  revert st; induction tcs as [|tc tcs IH]; intros st; simpl.
  - exists [], []. unfold ret. rewrite !app_nil_r. destruct st. repeat split.
  - unfold bind at 1.
    destruct (handleToolCall_effect E tc st) as [r [evs1 [H1 Hb1]]]. rewrite H1.
    destruct (IH (mkState (messages st ++ [toolMsg (tc_id tc) (tc_name tc) r])
                          (events st ++ evs1))) as [added [evs2 [H2 [Ha2 Hb2]]]].
    rewrite H2. simpl.
    exists (toolMsg (tc_id tc) (tc_name tc) r :: added), (evs1 ++ evs2).
    rewrite <- !app_assoc. split; [reflexivity|].
    split; [unfold assistants in *; simpl; exact Ha2|].
    by rewrite backendCalls_app, Hb1, Hb2.
Qed.

Lemma emitChunks_effect (E : AgentEnv) (chunks : list StreamChunk) (st : AgentState) :
  exists evs,
    emitChunks chunks st = (inl tt, mkState (messages st) (events st ++ evs)) /\
    backendCalls evs = 0.
Proof.
  revert st; induction chunks as [|c cs IH]; intros st; simpl.
  - exists []. unfold ret. rewrite app_nil_r. destruct st. split; reflexivity.
  - destruct (chunk_content c) as [t|].
    + unfold bind at 1, emit at 1.
      destruct (IH (mkState (messages st) (events st ++ [EvStreamChunk t])))
        as [evs [H Hb]].
      simpl in H. rewrite H. exists (EvStreamChunk t :: evs).
      rewrite <- app_assoc. split; [reflexivity | exact Hb].
    + apply IH.
Qed.

Section Ceiling.
Variable E : AgentEnv.
Variable stream : nat -> list Message -> list StreamChunk * option SwiftString.
Hypothesis Hstream : forall i ms,
  snd (stream i ms) = None /\ streamedToolCalls (fst (stream i ms)) <> [].

(** With a backend that always requests a tool, [n] iterations make [n]
    backend calls, append [n] assistant messages and then fail. *)
Lemma reactLoop_exhausts (n : nat) (st : AgentState) :
  exists st',
    reactLoop E stream n st = (inr maxIterationsReached, st') /\
    backendCalls (events st') = backendCalls (events st) + n /\
    exists added, messages st' = messages st ++ added /\ assistants added = n.
Proof.
  revert st; induction n as [|n IH]; intros st; simpl.
  - exists st. unfold throw. split; [reflexivity|]. split; [lia|].
    exists []. rewrite app_nil_r. split; reflexivity.
  - unfold bind at 1, emit at 1. simpl.
    unfold bind at 1, get at 1. simpl.
    unfold bind at 1, emit at 1. simpl.
    destruct (Hstream (backendCalls (events st ++ [EvThinking])) (messages st)) as [Herr Htc].
    destruct (stream (backendCalls (events st ++ [EvThinking])) (messages st))
      as [chunks err] eqn:Hs. simpl in Herr, Htc. subst err.
    unfold bind at 1.
    destruct (emitChunks_effect E chunks
                (mkState (messages st)
                   ((events st ++ [EvThinking]) ++ [EvBackendCall (messages st)])))
      as [evs [Hc Hbc]].
    rewrite Hc. simpl.
    destruct (streamedToolCalls chunks) as [|tc tcs] eqn:Htcs; [congruence|].
    unfold bind at 1, append at 1. simpl.
    unfold bind at 1.
    destruct (handleToolCalls_effect E (tc :: tcs)
                (mkState (messages st ++ [assistantMsg (streamedContent chunks) (Some (tc :: tcs))])
                   (((events st ++ [EvThinking]) ++ [EvBackendCall (messages st)]) ++ evs)))
      as [added [evs2 [Hh [Ha Hb2]]]].
    change (handleToolCall E tc ;;; handleToolCalls E tcs) with (handleToolCalls E (tc :: tcs)).
    rewrite Hh. simpl.
    destruct (IH (mkState ((messages st ++ [assistantMsg (streamedContent chunks)
                                              (Some (tc :: tcs))]) ++ added)
                   ((((events st ++ [EvThinking]) ++ [EvBackendCall (messages st)]) ++ evs)
                    ++ evs2)))
      as [st' [Hl [Hbl [added' [Hm Ha']]]]].
    exists st'. split; [exact Hl|]. split.
    + rewrite Hbl. simpl. rewrite !backendCalls_app, Hbc, Hb2.
      unfold backendCalls at 2 3. simpl. lia.
    + exists ([assistantMsg (streamedContent chunks) (Some (tc :: tcs))] ++ added ++ added').
      split.
      * rewrite Hm. simpl. by rewrite <- !app_assoc.
      * rewrite !assistants_app, Ha, Ha'. simpl. lia.
Qed.

End Ceiling.

End AgentFacts.

(** ** Claims on the agent loop *)

Module AgentClaims.
Import Swift SwiftAgent AgentFacts.

(** C4: with [maxIterations = 3] and a provider whose every stream ends
    normally with at least one tool call, [run] makes exactly three
    backend calls and fails with [maxIterationsReached]; the state it
    leaves (the transcript of the next turn) is the composed and trimmed
    transcript followed by everything appended in the three iterations,
    among which the three assistant messages. *)
Theorem C4_iteration_ceiling (E : AgentEnv)
    (stream : nat -> list Message -> list StreamChunk * option SwiftString)
    (st : AgentState) (userMessage : SwiftString) :
  provider E = Some stream ->
  maxIterations (config E) = 3 ->
  (forall i ms, snd (stream i ms) = None /\ streamedToolCalls (fst (stream i ms)) <> []) ->
  exists st',
    run E userMessage st = (inr maxIterationsReached, st') /\
    backendCalls (events st') = backendCalls (events st) + 3 /\
    exists added,
      messages st' = trimHistoryIfNeeded (composeMessages E (messages st) userMessage) ++ added /\
      assistants added = 3.
Proof.
  intros Hp Hmax Hs. unfold run. rewrite Hp, Hmax.
  unfold bind at 1, get at 1. unfold bind at 1, set_messages at 1. simpl.
  destruct (reactLoop_exhausts E stream Hs 3
              (mkState (trimHistoryIfNeeded (composeMessages E (messages st) userMessage))
                       (events st)))
    as [st' [Hl [Hb Hm]]].
  exists st'. split; [exact Hl|]. split; [exact Hb | exact Hm].
Qed.

Definition callEx : ToolCall := mkToolCall "call_0" "calculator" "{}".

Definition envEx (confirm : ToolCall -> bool) : AgentEnv :=
  mkEnv (mkConfig 3 false)
    (Some (fun _ _ => ([mkChunk (Some (sw "thinking")) (Some [callEx])], None)))
    (fun _ => true) (Some confirm) (fun _ _ => inl (sw "42")) (sw "You are Clarissa").

Lemma C4_iteration_ceiling_witness :
  exists st',
    run (envEx (fun _ => true)) (sw "hi") (mkState [] []) = (inr maxIterationsReached, st') /\
    backendCalls (events st') = 0 + 3 /\
    exists added,
      messages st' =
        trimHistoryIfNeeded (composeMessages (envEx (fun _ => true)) [] (sw "hi")) ++ added /\
      assistants added = 3.
Proof.
  apply (C4_iteration_ceiling (envEx (fun _ => true))
           (fun _ _ => ([mkChunk (Some (sw "thinking")) (Some [callEx])], None))
           (mkState [] []) (sw "hi")).
  - reflexivity.
  - reflexivity.
  - intros i ms. simpl. split; [reflexivity | discriminate].
Defined.

(** C5: for a tool call whose tool requires confirmation, with
    auto-approval off and a delegate that rejects it, the call is handled
    without executing the tool: a tool message for the call's id carrying
    the rejection payload (["rejected": true]) is appended, and the loop
    goes on with the remaining calls. *)
Theorem C5_confirmation_gating (E : AgentEnv) (confirm : ToolCall -> bool)
    (tc : ToolCall) (rest : list ToolCall) (st : AgentState) :
  autoApprove (config E) = false ->
  requiresConfirmation E (tc_name tc) = true ->
  onToolConfirmation E = Some confirm ->
  confirm tc = false ->
  let added := [EvToolCall tc; EvConfirm tc; EvToolResult (tc_name tc) (sw "Rejected by user")] in
  handleToolCalls E (tc :: rest) st =
    handleToolCalls E rest
      (mkState (messages st ++ [toolMsg (tc_id tc) (tc_name tc) rejectedPayload])
               (events st ++ added)) /\
  ~ In (EvExecute tc) added /\
  exists post, rejectedPayload = sw "{" ++ dq ++ sw "rejected" ++ dq ++ sw ": true" ++ post.
Proof.
  intros Ha Hr Hc Hf added. split; [|split].
  - simpl. unfold bind at 1, handleToolCall. rewrite Ha, Hr, Hc. simpl.
    unfold bind, emit, ret, append. simpl. rewrite Hf. simpl.
    rewrite <- ?app_assoc. reflexivity.
  - simpl. intros [H|[H|[H|[]]]]; discriminate.
  - exists (sw ", " ++ dq ++ sw "message" ++ dq ++ sw ": " ++ dq
            ++ sw "User rejected this tool execution" ++ dq ++ sw "}").
    vm_compute. reflexivity.
Qed.

Lemma C5_confirmation_gating_witness :
  let added := [EvToolCall callEx; EvConfirm callEx;
                EvToolResult (tc_name callEx) (sw "Rejected by user")] in
  handleToolCalls (envEx (fun _ => false)) [callEx; callEx] (mkState [] []) =
    handleToolCalls (envEx (fun _ => false)) [callEx]
      (mkState ([] ++ [toolMsg (tc_id callEx) (tc_name callEx) rejectedPayload]) ([] ++ added)) /\
  ~ In (EvExecute callEx) added /\
  exists post, rejectedPayload = sw "{" ++ dq ++ sw "rejected" ++ dq ++ sw ": true" ++ post.
Proof.
  exact (C5_confirmation_gating (envEx (fun _ => false)) (fun _ => false) callEx [callEx]
           (mkState [] []) eq_refl eq_refl eq_refl eq_refl).
Defined.

End AgentClaims.

(* ------------------------------------------------------------------ *)
(** ** Provider switching *)

Module RegistryClaims.
Import ProviderRegistry.

(** C6: [setActiveProvider id] on an unregistered id throws and leaves
    the registry untouched; on a provider whose availability probe says
    unavailable it throws and leaves the active provider unchanged; on
    success the calls made are the probe of the new provider, then
    [shutdown] of the previously active provider exactly once (when it
    has the method), then [initialize] of the new one, and the new
    provider is the active one. *)
Theorem C6_set_active_provider (B : ProviderBehaviour) (id : string) (s : RegistryState) :
  (providers s !! id = None ->
     exists e, setActiveProvider B id s = (inr e, s)) /\
  (forall p st, providers s !! id = Some p -> checkAvailability B p = inl st ->
     available st = false ->
     exists e s', setActiveProvider B id s = (inr e, s') /\
       activeProvider s' = activeProvider s /\ providers s' = providers s) /\
  (forall s', setActiveProvider B id s = (inl tt, s') ->
     exists p, providers s !! id = Some p /\ activeProvider s' = Some p /\
       providers s' = providers s /\
       calls s' = calls s ++ [EvCheckAvailability p]
                  ++ match activeProvider s with
                     | Some prev => if hasShutdown prev then [EvShutdown prev] else []
                     | None => []
                     end
                  ++ (if hasInitialize p then [EvInitialize p] else [])).
Proof.
  unfold setActiveProvider. split; [|split].
  - intros H. rewrite H. eauto.
  - intros p st H Hc Ha. rewrite H, Hc, Ha. simpl. eauto.
  - intros s' Hs. destruct (providers s !! id) as [p|] eqn:Hp; [|discriminate].
    destruct (checkAvailability B p) as [st|e]; [|discriminate].
    destruct (negb (available st)); [discriminate|].
    exists p. split; [reflexivity|]. simpl in Hs.
    destruct (activeProvider s) as [prev|] eqn:Hact.
    + destruct (hasShutdown prev).
      * destruct (shutdownOutcome B prev); [discriminate|].
        destruct (hasInitialize p).
        -- destruct (initializeOutcome B p); [discriminate|].
           inversion Hs; subst; simpl; rewrite <- ?app_assoc; simpl; rewrite ?app_nil_r; auto.
        -- inversion Hs; subst; simpl; rewrite <- ?app_assoc; simpl; rewrite ?app_nil_r; auto.
      * destruct (hasInitialize p).
        -- destruct (initializeOutcome B p); [discriminate|].
           inversion Hs; subst; simpl; rewrite <- ?app_assoc; simpl; rewrite ?app_nil_r; auto.
        -- inversion Hs; subst; simpl; rewrite <- ?app_assoc; simpl; rewrite ?app_nil_r; auto.
    + destruct (hasInitialize p).
      * destruct (initializeOutcome B p); [discriminate|].
        inversion Hs; subst; simpl; rewrite <- ?app_assoc; simpl; rewrite ?app_nil_r; auto.
      * inversion Hs; subst; simpl; rewrite <- ?app_assoc; simpl; rewrite ?app_nil_r; auto.
Qed.

Definition provA : Provider := mkProvider 1 true true.
Definition provB : Provider := mkProvider 2 true true.

Definition behaviourB (availB : bool) : ProviderBehaviour :=
  mkBehaviour (fun p => inl (mkStatus (if provider_uid p =? 2 then availB else true) ""))
              (fun _ => None) (fun _ => None).

Definition regAB : RegistryState :=
  mkRegistry (<["a" := provA]> (<["b" := provB]> ∅)) (Some provA) [].

Lemma C6_set_active_provider_witness :
  (exists e, setActiveProvider (behaviourB true) "c" regAB = (inr e, regAB)) /\
  (exists e s', setActiveProvider (behaviourB false) "b" regAB = (inr e, s') /\
     activeProvider s' = Some provA /\ providers s' = providers regAB) /\
  (exists p, providers regAB !! "b" = Some p /\
     activeProvider (snd (setActiveProvider (behaviourB true) "b" regAB)) = Some p /\
     providers (snd (setActiveProvider (behaviourB true) "b" regAB)) = providers regAB /\
     calls (snd (setActiveProvider (behaviourB true) "b" regAB))
       = [EvCheckAvailability p; EvShutdown provA; EvInitialize p]).
Proof.
  split; [|split].
  - apply (proj1 (C6_set_active_provider (behaviourB true) "c" regAB)).
    vm_compute. reflexivity.
  - apply (proj1 (proj2 (C6_set_active_provider (behaviourB false) "b" regAB))
             provB (mkStatus false "")); vm_compute; reflexivity.
  - edestruct (proj2 (proj2 (C6_set_active_provider (behaviourB true) "b" regAB))
                (snd (setActiveProvider (behaviourB true) "b" regAB)))
      as (p & H1 & H2 & H3 & H4); [vm_compute; reflexivity|].
    exists p. split; [exact H1|]. split; [exact H2|]. split; [exact H3|].
    rewrite H4. vm_compute in H1. injection H1 as <-. vm_compute. reflexivity.
Defined.

End RegistryClaims.

(* ------------------------------------------------------------------ *)
(** ** Tool execution never throws *)

Module ToolsClaims.
Import Tools.

(** C10: [ToolRegistry.execute] is total: for every tool name and
    arguments string it yields a result with role [tool] and the given
    name; an unknown name, a [JSON.parse] failure, a schema-validation
    failure and an exception of the tool's own [execute] each yield the
    content [JSON.stringify({error: ...})]. *)
Theorem C10_execute_total (jsonParse : list ascii -> JSValue + Thrown)
    (m : Registry) (name args : list ascii) :
  result_role (execute jsonParse m name args) = tool /\
  result_name (execute jsonParse m name args) = name /\
  (map_get m name = None ->
     exists msg, result_content (execute jsonParse m name args) = errorContent msg) /\
  (forall t, map_get m name = Some t ->
     (exists e, jsonParse args = inr e) \/
     (exists v e, jsonParse args = inl v /\ tool_parse t v = inr e) \/
     (exists v w e, jsonParse args = inl v /\ tool_parse t v = inl w /\
                    tool_execute t w = inr e) ->
     exists msg, result_content (execute jsonParse m name args) = errorContent msg).
Proof.
  unfold execute. split; [|split; [|split]].
  - destruct (map_get m name); [destruct (tryExecute _ _ _)|]; reflexivity.
  - destruct (map_get m name); [destruct (tryExecute _ _ _)|]; reflexivity.
  - intros H. rewrite H. eexists. reflexivity.
  - intros t Ht Hfail. rewrite Ht. unfold tryExecute.
    destruct Hfail as [[e He] | [[v [e [Hv He]]] | [v [w [e [Hv [Hw He]]]]]]].
    + rewrite He. eexists. reflexivity.
    + rewrite Hv, He. eexists. reflexivity.
    + rewrite Hv, Hw, He. eexists. reflexivity.
Qed.

Definition badJson (s : list ascii) : JSValue + Thrown :=
  match s with
  | [] => inr (ThrownError (str "Unexpected end of JSON input"))
  | _ => inl JNull
  end.

Definition failingTool : AnyTool :=
  mkTool (str "fail") [] [] (fun v => inl v) None None
         (fun _ => inr (ThrownOther (str "boom"))).

Definition rejectingTool : AnyTool :=
  mkTool (str "strict") [] [] (fun _ => inr (ThrownError (str "Invalid input")))
         (Some 1) None (fun v => inl v).

Definition regEx : Registry := register (register [] failingTool) rejectingTool.

Lemma C10_execute_total_witness :
  (exists msg, result_content (execute badJson regEx (str "nope") (str "{}"))
               = errorContent msg) /\
  (exists msg, result_content (execute badJson regEx (str "fail") [])
               = errorContent msg) /\
  (exists msg, result_content (execute badJson regEx (str "strict") (str "{}"))
               = errorContent msg) /\
  (exists msg, result_content (execute badJson regEx (str "fail") (str "{}"))
               = errorContent msg).
Proof.
  split; [|split; [|split]].
  - apply (proj1 (proj2 (proj2 (C10_execute_total badJson regEx (str "nope") (str "{}"))))).
    vm_compute. reflexivity.
  - apply (proj2 (proj2 (proj2 (C10_execute_total badJson regEx (str "fail") []))))
      with (t := failingTool); [vm_compute; reflexivity|].
    left. eexists. vm_compute. reflexivity.
  - apply (proj2 (proj2 (proj2 (C10_execute_total badJson regEx (str "strict") (str "{}")))))
      with (t := rejectingTool); [vm_compute; reflexivity|].
    right; left. do 2 eexists. split; vm_compute; reflexivity.
  - apply (proj2 (proj2 (proj2 (C10_execute_total badJson regEx (str "fail") (str "{}")))))
      with (t := failingTool); [vm_compute; reflexivity|].
    right; right. do 3 eexists. split; [|split]; vm_compute; reflexivity.
Defined.

End ToolsClaims.

(* ------------------------------------------------------------------ *)
(** ** On-device backend: null-response retry and tool ceiling *)

Module AppleClaims.
Import Apple.

Definition silentEnv : AppleEnv :=
  mkAppleEnv (fun _ => false) true (fun _ _ => inl (mkSdkResponse [] None))
             (fun _ _ => ([], None)).

Definition helloMsgs : list (list ascii * list ascii) := [(str "user", str "hi")].

Definition noTools : ChatOptions := mkChatOptions None false.

(** C7 (counterexample): a non-streaming call whose response text is
    empty and which carries no tool calls is surfaced after a single SDK
    call, without the tool-free retry. *)
Lemma C7_empty_response_not_retried :
  text (mkSdkResponse [] None) = [] /\ noToolCalls (mkSdkResponse [] None) = true /\
  useStreamingOf noTools = false /\
  snd (chat silentEnv helloMsgs noTools) = [mkAppleOptions helloMsgs None false] /\
  fst (chat silentEnv helloMsgs noTools) = inl (createResponse silentEnv [] None).
Proof. vm_compute. repeat split. Qed.

(** C7 (amended): in a non-streaming call with the SDK loaded, a first
    response whose text is the literal ["null"] and which carries no tool
    calls is followed by exactly one more SDK call, with no tools
    advertised, whose outcome is what [chat] returns; every other first
    response (an empty one included) is returned after that single call. *)
Theorem C7_null_response_retry (E : AppleEnv) (msgs : list (list ascii * list ascii))
    (options : ChatOptions) (r1 : SdkResponse) :
  sdkAvailable E = true -> useStreamingOf options = false ->
  sdkChat E 0 (mkAppleOptions msgs (appleToolsOf options) false) = inl r1 ->
  (str_eqb (text r1) (str "null") && noToolCalls r1 = true ->
     snd (chat E msgs options) = [mkAppleOptions msgs (appleToolsOf options) false;
                                  mkAppleOptions msgs None false] /\
     fst (chat E msgs options)
       = match sdkChat E 1 (mkAppleOptions msgs None false) with
         | inl r2 => inl (createResponse E (text r2) (sdkToolCalls r2))
         | inr e => inr (wrapError e)
         end) /\
  (str_eqb (text r1) (str "null") && noToolCalls r1 = false ->
     chat E msgs options = (inl (createResponse E (text r1) (sdkToolCalls r1)),
                            [mkAppleOptions msgs (appleToolsOf options) false])).
Proof.
  intros Hav Hstream Hr1. unfold chat. rewrite Hav, Hstream. simpl. rewrite Hr1.
  split.
  - intros Hnull. rewrite Hnull.
    destruct (sdkChat E 1 (mkAppleOptions msgs None false)); split; reflexivity.
  - intros Hnull. rewrite Hnull. reflexivity.
Qed.

Definition nullOnceEnv : AppleEnv :=
  mkAppleEnv (fun _ => false) true
    (fun k _ => inl (mkSdkResponse (if k =? 0 then str "null" else str "Hello") None))
    (fun _ _ => ([], None)).

Lemma C7_null_response_retry_witness :
  snd (chat nullOnceEnv helloMsgs noTools)
    = [mkAppleOptions helloMsgs (appleToolsOf noTools) false;
       mkAppleOptions helloMsgs None false] /\
  fst (chat nullOnceEnv helloMsgs noTools)
    = inl (createResponse nullOnceEnv (str "Hello") None).
Proof.
  destruct (C7_null_response_retry nullOnceEnv helloMsgs noTools
              (mkSdkResponse (str "null") None) eq_refl eq_refl eq_refl) as [Hnull _].
  destruct (Hnull eq_refl) as [H1 H2]. split; [exact H1|].
  rewrite H2. reflexivity.
Defined.

End AppleClaims.

(* ------------------------------------------------------------------ *)
(** ** Tool-count ceiling *)

Module LimitFacts.
Import Tools.

Definition prio_le (a b : AnyTool) : Prop := priorityOf a <= priorityOf b.

Lemma insert_by_priority_perm (x : AnyTool) (l : list AnyTool) :
  Permutation (x :: l) (insert_by_priority x l).
Proof.
  induction l as [|y l IH]; simpl; [reflexivity|].
  destruct (priorityOf x <? priorityOf y); [reflexivity|].
  rewrite <- IH. constructor.
Qed.

Lemma insert_by_priority_sorted (x : AnyTool) (l : list AnyTool) :
  Sorted prio_le l -> Sorted prio_le (insert_by_priority x l).
Proof.
  induction 1 as [|y l Hs IH Hhd]; simpl.
  - repeat constructor.
  - destruct (priorityOf x <? priorityOf y) eqn:Hlt.
    + apply Nat.ltb_lt in Hlt. constructor; [constructor; assumption|].
      constructor. unfold prio_le. lia.
    + apply Nat.ltb_ge in Hlt. constructor; [exact IH|].
      destruct l as [|z l]; simpl.
      * constructor. unfold prio_le. lia.
      * inversion Hhd; subst.
        destruct (priorityOf x <? priorityOf z); constructor; unfold prio_le in *; lia.
Qed.

Lemma sort_fold_perm (l acc : list AnyTool) :
  Permutation (acc ++ l) (fold_left (fun acc x => insert_by_priority x acc) l acc).
Proof.
  revert acc. induction l as [|x l IH]; intros acc; simpl.
  - rewrite app_nil_r. reflexivity.
  - rewrite <- IH. rewrite <- insert_by_priority_perm.
    rewrite (Permutation_app_comm acc (x :: l)). simpl. constructor.
    apply Permutation_app_comm.
Qed.

Lemma sort_fold_sorted (l acc : list AnyTool) :
  Sorted prio_le acc ->
  Sorted prio_le (fold_left (fun acc x => insert_by_priority x acc) l acc).
Proof.
  revert acc. induction l as [|x l IH]; intros acc Hs; simpl; [exact Hs|].
  apply IH. apply insert_by_priority_sorted. exact Hs.
Qed.

Lemma sort_by_priority_perm (l : list AnyTool) : Permutation l (sort_by_priority l).
Proof. apply (sort_fold_perm l []). Qed.

Lemma sort_by_priority_strongly_sorted (l : list AnyTool) :
  StronglySorted prio_le (sort_by_priority l).
Proof.
  apply Sorted_StronglySorted.
  - intros a b c. unfold prio_le. lia.
  - apply sort_fold_sorted. constructor.
Qed.

Lemma strongly_sorted_split (l : list AnyTool) (n : nat) (a b : AnyTool) :
  StronglySorted prio_le l -> In a (firstn n l) -> In b (skipn n l) -> prio_le a b.
Proof.
  revert n. induction l as [|x l IH]; intros n Hs Ha Hb.
  - destruct n; simpl in Ha; contradiction.
  - destruct n as [|n]; simpl in Ha; [contradiction|].
    simpl in Hb. inversion Hs as [|? ? Hs' Hall]; subst.
    destruct Ha as [<- | Ha].
    + rewrite List.Forall_forall in Hall. apply Hall.
      rewrite <- (firstn_skipn n l). apply in_or_app. right. exact Hb.
    + eapply IH; eauto.
Qed.

Definition tier (p : nat) (t : AnyTool) : bool := priorityOf t =? p.

Lemma filter_tier_none (p : nat) (x : AnyTool) (l : list AnyTool) :
  priorityOf x = p -> (forall y, In y l -> priorityOf x <> priorityOf y) ->
  List.filter (tier p) l = [].
Proof.
  intros Hx Hne. induction l as [|y l IH]; simpl; [reflexivity|].
  unfold tier at 1. destruct (priorityOf y =? p) eqn:Hy.
  - apply Nat.eqb_eq in Hy. exfalso. apply (Hne y); [left; reflexivity | lia].
  - apply IH. intros z Hz. apply Hne. right. exact Hz.
Qed.

(** Inserting into a sorted list puts a tool after every tool of its own
    tier: within a tier, the order is that of insertion. *)
Lemma insert_by_priority_tier (p : nat) (x : AnyTool) (l : list AnyTool) :
  StronglySorted prio_le l ->
  List.filter (tier p) (insert_by_priority x l) = List.filter (tier p) (l ++ [x]).
Proof.
  induction l as [|y l IH]; intros Hs; simpl; [reflexivity|].
  inversion Hs as [|? ? Hs' Hall]; subst.
  destruct (priorityOf x <? priorityOf y) eqn:Hlt.
  - apply Nat.ltb_lt in Hlt.
    change (y :: l ++ [x]) with ((y :: l) ++ [x]). rewrite List.filter_app.
    assert (Hl : List.filter (tier (priorityOf x)) (y :: l) = []).
    { apply (filter_tier_none _ x); [reflexivity|].
      intros z [<- | Hz]; [lia|].
      rewrite List.Forall_forall in Hall. specialize (Hall z Hz). unfold prio_le in Hall. lia. }
    change (List.filter (tier p) (x :: y :: l))
      with (if tier p x then x :: List.filter (tier p) (y :: l) else List.filter (tier p) (y :: l)).
    change (List.filter (tier p) [x]) with (if tier p x then [x] else []).
    destruct (tier p x) eqn:Hx.
    + unfold tier in Hx. apply Nat.eqb_eq in Hx. subst p.
      cbn [List.filter app] in Hl |- *.
      destruct (tier (priorityOf x) y); [discriminate Hl|]. rewrite Hl. reflexivity.
    + rewrite app_nil_r. reflexivity.
  - cbn [List.filter app]. rewrite (IH Hs'). reflexivity.
Qed.

Lemma sort_fold_tier (p : nat) (l acc : list AnyTool) :
  StronglySorted prio_le acc ->
  List.filter (tier p) (fold_left (fun acc x => insert_by_priority x acc) l acc)
  = List.filter (tier p) (acc ++ l).
Proof.
  revert acc. induction l as [|x l IH]; intros acc Hs; simpl; [by rewrite app_nil_r|].
  rewrite IH.
  - rewrite List.filter_app, insert_by_priority_tier by exact Hs.
    rewrite <- List.filter_app, <- app_assoc. reflexivity.
  - apply Sorted_StronglySorted; [intros a b c; unfold prio_le; lia|].
    apply insert_by_priority_sorted. apply StronglySorted_Sorted. exact Hs.
Qed.

(** The sort is stable: the tools of each tier keep their order. *)
Lemma sort_by_priority_stable (p : nat) (l : list AnyTool) :
  List.filter (tier p) (sort_by_priority l) = List.filter (tier p) l.
Proof. unfold sort_by_priority. rewrite sort_fold_tier by constructor. reflexivity. Qed.

Lemma convertTools_firstn_length (ts : list Apple.ToolDefinition) :
  length (Apple.convertTools (firstn Apple.MAX_TOOLS ts)) = Nat.min Apple.MAX_TOOLS (length ts).
Proof. unfold Apple.convertTools. rewrite length_map, length_firstn. reflexivity. Qed.

End LimitFacts.

Module LimitClaims.
Import Tools Apple LimitFacts.

Definition extTool (c : ascii) : AnyTool :=
  mkTool [c] (str "extended") [] (fun v => inl v) None None (fun v => inl v).

Definition coreTool : AnyTool :=
  mkTool (str "core") (str "core") [] (fun v => inl v) (Some 1) None (fun v => inl v).

(** Ten extended (tier 3) tools registered before one core (tier 1) tool. *)
Definition regCore : Registry :=
  fold_left register (map extTool (list_ascii_of_string "abcdefghij") ++ [coreTool]) [].

Definition advertisedNames (E : AppleEnv) (options : ChatOptions) : list (list ascii) :=
  match snd (chat E AppleClaims.helloMsgs options) with
  | o :: _ => match ao_tools o with Some ts => map at_name ts | None => [] end
  | [] => []
  end.

Definition allTools : ChatOptions := mkChatOptions (Some (getDefinitions regCore)) false.

(** C8 (counterexample): offered the registry's eleven tools, the
    on-device backend advertises the first ten supplied, all of tier 3,
    and drops the tier 1 tool. *)
Lemma C8_apple_keeps_supplied_order :
  length (getDefinitions regCore) = 11 /\
  priorityOf coreTool < priorityOf (extTool "a") /\
  ~ In (str "core") (advertisedNames AppleClaims.silentEnv allTools) /\
  In (str "a") (advertisedNames AppleClaims.silentEnv allTools) /\
  length (advertisedNames AppleClaims.silentEnv allTools) = MAX_TOOLS.
Proof. vm_compute. split; [reflexivity|]. split; [lia|]. split; [|split; [|reflexivity]].
  - intros H. repeat (destruct H as [H|H]; [discriminate|]). exact H.
  - left. reflexivity.
Qed.

(** C8 (amended): the on-device backend passes on the first [MAX_TOOLS]
    supplied tools in the supplied order; the selection that favours
    priority tiers is [getDefinitionsLimited n], which returns the first
    [n] tools of a stable sort by tier (missing tier = 3): the kept tools
    and the dropped ones together are all the registered tools, the tools
    of each tier keep their registration order, and every kept tool has a
    tier no larger than every dropped one. *)
Theorem C8_tool_limit (E : AppleEnv) (msgs : list (list ascii * list ascii))
    (ts : list ToolDefinition) (onChunk : bool) (m : Registry) (n : nat) :
  (sdkAvailable E = true -> 0 < length ts ->
     exists rest, snd (chat E msgs (mkChatOptions (Some ts) onChunk))
                  = mkAppleOptions msgs (Some (convertTools (firstn MAX_TOOLS ts))) false
                    :: rest /\
                  length (convertTools (firstn MAX_TOOLS ts)) = Nat.min MAX_TOOLS (length ts)) /\
  (exists kept dropped,
     getToolsSortedByPriority m = kept ++ dropped /\
     getDefinitionsLimited m (Some n) = map toolToDefinition kept /\
     length kept = Nat.min n (length m) /\
     Permutation (values m) (kept ++ dropped) /\
     (forall p, List.filter (fun t => priorityOf t =? p) (kept ++ dropped)
                = List.filter (fun t => priorityOf t =? p) (values m)) /\
     forall a b, In a kept -> In b dropped -> priorityOf a <= priorityOf b).
Proof.
  split.
  - intros Hav Hlen. unfold chat, useStreamingOf, appleToolsOf. rewrite Hav. simpl.
    apply Nat.ltb_lt in Hlen. rewrite Hlen. rewrite andb_false_r.
    destruct (sdkChat E 0 _) as [r|e].
    + destruct (str_eqb _ _ && noToolCalls r);
        [destruct (sdkChat E 1 _)|]; simpl; eexists; split;
        solve [reflexivity | apply convertTools_firstn_length].
    + simpl. eexists. split; [reflexivity | apply convertTools_firstn_length].
  - exists (firstn n (getToolsSortedByPriority m)), (skipn n (getToolsSortedByPriority m)).
    split; [symmetry; apply firstn_skipn|]. split; [reflexivity|]. split.
    + rewrite length_firstn. unfold getToolsSortedByPriority.
      rewrite <- (Permutation_length (sort_by_priority_perm (values m))).
      unfold values. rewrite length_map. reflexivity.
    + split.
      * rewrite firstn_skipn. apply sort_by_priority_perm.
      * split; [intros p; rewrite firstn_skipn; apply (sort_by_priority_stable p)|].
        intros a b Ha Hb. apply (strongly_sorted_split (getToolsSortedByPriority m) n a b); [|exact Ha|exact Hb].
        apply sort_by_priority_strongly_sorted.
Qed.

Lemma C8_tool_limit_witness :
  (exists rest, snd (chat AppleClaims.silentEnv AppleClaims.helloMsgs allTools)
     = mkAppleOptions AppleClaims.helloMsgs
         (Some (convertTools (firstn MAX_TOOLS (getDefinitions regCore)))) false :: rest /\
     length (convertTools (firstn MAX_TOOLS (getDefinitions regCore)))
       = Nat.min MAX_TOOLS (length (getDefinitions regCore))).
Proof.
  apply (proj1 (C8_tool_limit AppleClaims.silentEnv AppleClaims.helloMsgs
                  (getDefinitions regCore) false regCore 1)); vm_compute; [reflexivity | lia].
Defined.

End LimitClaims.

(* ------------------------------------------------------------------ *)
(** ** Local model cache *)

Module CacheFacts.
Import LocalLlama.

Definition holds (path : string) (inst : Instance) : bool :=
  String.eqb (modelPath inst) path
  && match model inst with Some _ => true | None => false end.

Definition holdsZ (path : string) (inst : Instance) : Z := if holds path inst then 1%Z else 0%Z.

(** Every cache entry counts at least the instances holding its model,
    and is positive; a path without an entry has no holder. *)
Definition cache_inv (w : World) : Prop :=
  forall path, match modelCache w !! path with
               | Some e => (Z.of_nat (holders w path) <= refCount e /\ 0 < refCount e)%Z
               | None => holders w path = 0
               end.

Lemma filter_insert_count {A} (f : A -> bool) (l : list A) (i : nat) (x y : A) :
  l !! i = Some y ->
  length (List.filter f (<[i := x]> l)) + (if f y then 1 else 0)
  = length (List.filter f l) + (if f x then 1 else 0).
Proof.
  revert i. induction l as [|z l IH]; intros i Hi; [discriminate|].
  destruct i as [|i]; simpl in Hi |- *.
  - injection Hi as ->. destruct (f x), (f y); simpl; lia.
  - specialize (IH i Hi). destruct (f z); simpl; lia.
Qed.

Lemma holders_set (w : World) (path : string) (i : nat)
    (inst x : Instance) :
  instances w !! i = Some inst ->
  (Z.of_nat (length (List.filter (holds path) (<[i := x]> (instances w)))) + holdsZ path inst
   = Z.of_nat (holders w path) + holdsZ path x)%Z.
Proof.
  intros Hi. pose proof (filter_insert_count (holds path) _ i x inst Hi) as H.
  unfold holdsZ, holders. fold (holds path).
  destruct (holds path inst), (holds path x); lia.
Qed.

Lemma holders_of (w : World) (path : string) :
  holders w path = length (List.filter (holds path) (instances w)).
Proof. reflexivity. Qed.

Ltac path_cases path p0 :=
  destruct (String.eqb_spec p0 path) as [<-|Hne];
  [ rewrite ?lookup_insert_eq, ?lookup_delete_eq
  | rewrite ?lookup_insert_ne, ?lookup_delete_ne by exact Hne ].

Lemma initialize_inv (w : World) (i : nat) : cache_inv w -> cache_inv (initialize i w).
Proof.
  intros Hinv path. unfold initialize.
  destruct (instances w !! i) as [inst|] eqn:Hi; [|apply Hinv].
  pose proof (Hinv path) as Hp. pose proof (Hinv (modelPath inst)) as H0.
  destruct (modelCache w !! modelPath inst) as [c|] eqn:Hc; rewrite holders_of; simpl;
    unfold set_instance;
    pose proof (holders_set w path i inst
                  (mkInstance (modelPath inst)
                     (Some (match modelCache w !! modelPath inst with
                            | Some c => entry_model c | None => loads w end))) Hi) as Hs;
    rewrite Hc in Hs; cbv beta iota in Hs;
    set (Lnew := Z.of_nat (length (List.filter (holds path) _))) in *;
    unfold holdsZ, holds in Hs; simpl in Hs.
  - path_cases path (modelPath inst).
    + rewrite Hc in Hp. rewrite ?String.eqb_refl in Hs. simpl.
      destruct (model inst); simpl in Hs; lia.
    + apply String.eqb_neq in Hne. rewrite ?Hne in Hs. simpl in Hs.
      destruct (modelCache w !! path); lia.
  - path_cases path (modelPath inst).
    + rewrite Hc in Hp. rewrite ?String.eqb_refl in Hs. simpl.
      destruct (model inst); simpl in Hs; lia.
    + apply String.eqb_neq in Hne. rewrite ?Hne in Hs. simpl in Hs.
      destruct (modelCache w !! path); lia.
Qed.

Lemma shutdown_inv (w : World) (i : nat) : cache_inv w -> cache_inv (shutdown i w).
Proof.
  intros Hinv path. unfold shutdown.
  destruct (instances w !! i) as [inst|] eqn:Hi; [|apply Hinv].
  pose proof (Hinv path) as Hp. rewrite holders_of; simpl; unfold set_instance.
  pose proof (holders_set w path i inst (mkInstance (modelPath inst) None) Hi) as Hs.
  set (Lnew := Z.of_nat (length (List.filter (holds path) _))) in *.
  unfold holdsZ, holds in Hs; simpl in Hs. rewrite andb_false_r in Hs.

  destruct (model inst) as [h|] eqn:Hm.
  - destruct (modelCache w !! modelPath inst) as [c|] eqn:Hc.
    + destruct (refCount c - 1 <=? 0)%Z eqn:Hle.
      * apply Z.leb_le in Hle. path_cases path (modelPath inst).
        -- rewrite Hc in Hp. rewrite ?String.eqb_refl in Hs. simpl in Hs. lia.
        -- apply String.eqb_neq in Hne. rewrite ?Hne in Hs. simpl in Hs.
           destruct (modelCache w !! path); lia.
      * apply Z.leb_gt in Hle. path_cases path (modelPath inst).
        -- rewrite Hc in Hp. rewrite ?String.eqb_refl in Hs. simpl in Hs |- *. lia.
        -- apply String.eqb_neq in Hne. rewrite ?Hne in Hs. simpl in Hs.
           destruct (modelCache w !! path); lia.
    + destruct (String.eqb (modelPath inst) path) eqn:Hpe; simpl in Hs.
      * apply String.eqb_eq in Hpe. subst path. rewrite Hc in Hp |- *. lia.
      * destruct (modelCache w !! path); lia.
  - rewrite andb_false_r in Hs. destruct (modelCache w !! path); lia.
Qed.

Lemma step_inv (w : World) (op : Op) : cache_inv w -> cache_inv (step w op).
Proof. destruct op; [apply initialize_inv | apply shutdown_inv]. Qed.

Lemma run_ops_inv (w : World) (ops : list Op) : cache_inv w -> cache_inv (run_ops w ops).
Proof.
  unfold run_ops. revert w. induction ops as [|op ops IH]; intros w Hw; simpl; [exact Hw|].
  apply IH, step_inv, Hw.
Qed.

Lemma run_ops_app (w : World) (pre post : list Op) :
  run_ops w (pre ++ post) = run_ops (run_ops w pre) post.
Proof. unfold run_ops. apply fold_left_app. Qed.

Lemma step_load (w : World) (op : Op) :
  cache_inv w -> loads (step w op) = S (loads w) ->
  exists i inst, op = Init i /\ instances w !! i = Some inst /\
                 modelCache w !! modelPath inst = None /\ holders w (modelPath inst) = 0.
Proof.
  intros Hinv Hl. destruct op as [i|i]; simpl in Hl.
  - unfold initialize in Hl. destruct (instances w !! i) as [inst|] eqn:Hi; [|lia].
    destruct (modelCache w !! modelPath inst) as [c|] eqn:Hc; simpl in Hl; [lia|].
    exists i, inst. split; [reflexivity|]. split; [exact Hi|]. split; [exact Hc|].
    pose proof (Hinv (modelPath inst)) as H. rewrite Hc in H. exact H.
  - unfold shutdown in Hl. destruct (instances w !! i); simpl in Hl; lia.
Qed.

End CacheFacts.

Module CacheClaims.
Import LocalLlama CacheFacts.

Definition modelFile : string := "/models/llama.gguf".

(** Two provider instances configured with the same model path, neither
    initialised. *)
Definition twoInstances : World :=
  mkWorld ∅ [mkInstance modelFile None; mkInstance modelFile None] 0.

(** C9 (counterexample): after [A.initialize(); B.initialize();
    A.shutdown(); A.shutdown()] two initialize and two shutdown calls have
    completed on the path, but its refCount is 1, not 0: the second
    shutdown of [A] finds [model] already [null] and does not decrement. *)
Lemma C9_refcount_not_inits_minus_shutdowns :
  refCountOf (run_ops twoInstances [Init 0; Init 1; Shutdown 0; Shutdown 0]) modelFile = 1%Z /\
  loads (run_ops twoInstances [Init 0; Init 1; Shutdown 0; Shutdown 0]) = 1.
Proof. vm_compute. split; reflexivity. Qed.

(** C9 (amended): [initialize] either increments the path's existing entry
    without loading or, when the path has no entry, loads once and inserts
    refCount 1; [shutdown] decrements only when the instance holds a model
    (deleting the entry once the count is at most 0) and otherwise leaves
    the cache alone.  From a cache whose entries count at least their
    holding instances, every run keeps that invariant, and every model load
    in it happens for a path that no instance holds. *)
Theorem C9_refcount_cache (w : World) (ops : list Op) :
  cache_inv w ->
  (forall i inst c, instances w !! i = Some inst -> modelCache w !! modelPath inst = Some c ->
     modelCache (initialize i w) !! modelPath inst
       = Some (mkEntry (entry_model c) (refCount c + 1)) /\
     loads (initialize i w) = loads w) /\
  (forall i inst, instances w !! i = Some inst -> modelCache w !! modelPath inst = None ->
     modelCache (initialize i w) !! modelPath inst = Some (mkEntry (loads w) 1) /\
     loads (initialize i w) = S (loads w)) /\
  (forall i inst h c, instances w !! i = Some inst -> model inst = Some h ->
     modelCache w !! modelPath inst = Some c ->
     modelCache (shutdown i w) !! modelPath inst
       = (if (refCount c - 1 <=? 0)%Z then None
          else Some (mkEntry (entry_model c) (refCount c - 1)))) /\
  (forall i inst, instances w !! i = Some inst -> model inst = None ->
     modelCache (shutdown i w) = modelCache w) /\
  cache_inv (run_ops w ops) /\
  (forall pre op post, ops = pre ++ op :: post ->
     loads (step (run_ops w pre) op) = S (loads (run_ops w pre)) ->
     exists i inst, op = Init i /\ instances (run_ops w pre) !! i = Some inst /\
       holders (run_ops w pre) (modelPath inst) = 0).
Proof.
  intros Hinv. split; [|split; [|split; [|split; [|split]]]].
  - intros i inst c Hi Hc. unfold initialize. rewrite Hi, Hc. simpl.
    rewrite lookup_insert_eq. split; reflexivity.
  - intros i inst Hi Hc. unfold initialize. rewrite Hi, Hc. simpl.
    rewrite lookup_insert_eq. split; reflexivity.
  - intros i inst h c Hi Hm Hc. unfold shutdown. rewrite Hi, Hm, Hc. simpl.
    destruct (refCount c - 1 <=? 0)%Z.
    + apply lookup_delete_eq.
    + apply lookup_insert_eq.
  - intros i inst Hi Hm. unfold shutdown. rewrite Hi, Hm. reflexivity.
  - apply run_ops_inv, Hinv.
  - intros pre op post -> Hl.
    destruct (step_load (run_ops w pre) op (run_ops_inv w pre Hinv) Hl)
      as (i & inst & Hop & Hi & _ & H0).
    exists i, inst. auto.
Qed.

Lemma fresh_inv : cache_inv twoInstances.
Proof.
  intros path. unfold twoInstances, holders. simpl. rewrite lookup_empty.
  rewrite !andb_false_r. reflexivity.
Qed.

Lemma C9_refcount_cache_witness :
  cache_inv (run_ops twoInstances [Init 0; Init 1; Shutdown 0; Shutdown 1; Init 0]) /\
  modelCache (initialize 0 twoInstances) !! modelFile = Some (mkEntry 0 1) /\
  loads (initialize 0 twoInstances) = 1.
Proof.
  destruct (C9_refcount_cache twoInstances [Init 0; Init 1; Shutdown 0; Shutdown 1; Init 0]
              fresh_inv) as (_ & Hload & _ & _ & Hrun & _).
  split; [exact Hrun|].
  exact (Hload 0 (mkInstance modelFile None) eq_refl eq_refl).
Defined.

End CacheClaims.

(* ================================================================== *)
(** * Further properties of the code *)

(** ** Swift agent: sessions and token estimates *)

Module SessionExtras.
Import Swift SwiftSession.

Lemma find_filter_not (ms : list Message) :
  firstSystem (List.filter (fun m => negb (is_system m)) ms) = None.
Proof.
  unfold firstSystem. induction ms as [|m ms IH]; simpl; [reflexivity|].
  destruct (is_system m) eqn:Hs; simpl; [exact IH|]. rewrite Hs. exact IH.
Qed.

Lemma filter_not_system_idem (ms : list Message) :
  List.filter (fun m => negb (is_system m)) (List.filter (fun m => negb (is_system m)) ms)
  = List.filter (fun m => negb (is_system m)) ms.
Proof.
  induction ms as [|m ms IH]; simpl; [reflexivity|].
  destruct (is_system m) eqn:Hs; simpl; [exact IH|]. rewrite Hs. simpl. by rewrite IH.
Qed.

Lemma find_system_is_system (ms : list Message) (m : Message) :
  firstSystem ms = Some m -> is_system m = true.
Proof.
  unfold firstSystem. intros H. apply find_some in H. apply H.
Qed.

(** [reset()] keeps only the first system message of the transcript (or
    nothing when there is none): nothing is left to save, and the system
    prompt found is the same. *)
Theorem reset_keeps_system_prompt (ms : list Message) :
  length (reset ms) <= 1 /\
  getMessagesForSave (reset ms) = [] /\
  firstSystem (reset ms) = firstSystem ms.
Proof.
  unfold reset. destruct (firstSystem ms) as [m|] eqn:Hm; simpl; [|auto].
  pose proof (find_system_is_system ms m Hm) as Hs.
  unfold getMessagesForSave, firstSystem. simpl. rewrite Hs. simpl. auto.
Qed.

(** [loadMessages(saved)] then [getMessagesForSave()] gives back the
    saved messages without their system messages, and the transcript
    keeps the system prompt it had before loading. *)
Theorem load_then_save (ms saved : list Message) :
  getMessagesForSave (loadMessages ms saved) = getMessagesForSave saved /\
  firstSystem (loadMessages ms saved) = firstSystem ms /\
  ((forall m, In m saved -> is_system m = false) ->
   getMessagesForSave (loadMessages ms saved) = saved).
Proof.
  unfold loadMessages, getMessagesForSave. split; [|split].
  - destruct (firstSystem ms) as [m|] eqn:Hm; simpl.
    + rewrite (find_system_is_system ms m Hm). simpl. apply filter_not_system_idem.
    + apply filter_not_system_idem.
  - destruct (firstSystem ms) as [m|] eqn:Hm; simpl.
    + unfold firstSystem. simpl. rewrite (find_system_is_system ms m Hm). reflexivity.
    + apply find_filter_not.
  - intros Hall. destruct (firstSystem ms) as [m|] eqn:Hm; simpl;
      [rewrite (find_system_is_system ms m Hm); simpl|];
      rewrite filter_not_system_idem; apply forallb_filter_id;
      apply forallb_forall; intros x Hx; rewrite (Hall x Hx); reflexivity.
Qed.

Lemma load_then_save_witness :
  getMessagesForSave (loadMessages [systemMsg (sw "p")] [userMsg (sw "hi")])
    = [userMsg (sw "hi")].
Proof.
  apply (proj2 (proj2 (load_then_save [systemMsg (sw "p")] [userMsg (sw "hi")]))).
  intros m [<-|[]]. reflexivity.
Defined.

(** [TokenBudget.estimate] is between 0 and the character count, and is 0
    exactly for the empty string. *)
Theorem estimate_bounds (text : SwiftString) :
  (0 <= TokenBudget.estimate text <= Z.of_nat (length text))%Z /\
  (TokenBudget.estimate text = 0%Z <-> text = []).
Proof.
  unfold TokenBudget.estimate.
  destruct text as [|ch text].
  - simpl. split; [lia|]. split; reflexivity.
  - cbv zeta. set (n := Z.of_nat (length (ch :: text))).
    assert (Hn : (1 <= n)%Z) by (unfold n; simpl; lia).
    destruct (n / 2 <? _)%Z.
    + assert (0 <= n / 4 <= n)%Z by (split; [apply Z.div_pos | apply Z.div_le_upper_bound]; lia).
      split; [lia|]. split; [lia | discriminate].
    + split; [lia|]. split; [lia | discriminate].
Qed.

End SessionExtras.

(** ** Swift agent loop *)

Module AgentExtras.
Import Swift SwiftAgent AgentFacts.

(** A computation that only appends to the transcript. *)
Definition grows {A} (m : M A) : Prop :=
  forall st, exists l, messages (snd (m st)) = messages st ++ l.

Lemma grows_ret {A} (a : A) : grows (ret a).
Proof. intros st. exists []. by rewrite app_nil_r. Qed.

Lemma grows_throw {A} (e : AgentError) : grows (@throw A e).
Proof. intros st. exists []. by rewrite app_nil_r. Qed.

Lemma grows_emit (ev : Event) : grows (emit ev).
Proof. intros st. exists []. by rewrite app_nil_r. Qed.

Lemma grows_append (m : Message) : grows (append m).
Proof. intros st. exists [m]. reflexivity. Qed.

Lemma grows_get : grows get.
Proof. intros st. exists []. by rewrite app_nil_r. Qed.


Create HintDb grows.
#[local] Hint Resolve grows_ret grows_throw grows_emit grows_append grows_get : grows.








Definition echoEnv : AgentEnv :=
  mkEnv (mkConfig 2 false)
    (Some (fun _ _ => ([mkChunk (Some (sw "hello")) None], None)))
    (fun _ => false) None (fun _ _ => inl (sw "ok")) (sw "You are Clarissa").


(** A first backend reply without tool calls ends the turn: [run] returns
    the concatenated streamed text after exactly one backend call,
    appending one assistant message without tool calls, and reports the
    response. *)
Theorem run_answers_without_tools (E : AgentEnv) (u : SwiftString) (st : AgentState)
    stream (k : nat) (chunks : list StreamChunk) :
  provider E = Some stream -> maxIterations (config E) = S k ->
  stream (backendCalls (events st)) (trimHistoryIfNeeded (composeMessages E (messages st) u))
    = (chunks, None) ->
  streamedToolCalls chunks = [] ->
  exists evs,
    run E u st =
      (inl (streamedContent chunks),
       mkState (trimHistoryIfNeeded (composeMessages E (messages st) u)
                ++ [assistantMsg (streamedContent chunks) None])
               (events st ++ [EvThinking;
                              EvBackendCall (trimHistoryIfNeeded (composeMessages E (messages st) u))]
                ++ evs ++ [EvResponse (streamedContent chunks)])) /\
    backendCalls evs = 0.
Proof.
  intros Hp Hk Hs Htc. unfold run. rewrite Hp, Hk. simpl.
  unfold bind at 1, get at 1. unfold bind at 1, set_messages at 1. simpl.
  unfold bind at 1, emit at 1. simpl.
  unfold bind at 1, get at 1. simpl.
  unfold bind at 1, emit at 1. simpl.
  assert (Hb : backendCalls (events st ++ [EvThinking]) = backendCalls (events st)).
  { rewrite backendCalls_app. unfold backendCalls at 2. simpl. lia. }
  rewrite Hb, Hs.
  unfold bind at 1.
  destruct (emitChunks_effect E chunks
              (mkState (trimHistoryIfNeeded (composeMessages E (messages st) u))
                 ((events st ++ [EvThinking]) ++
                  [EvBackendCall (trimHistoryIfNeeded (composeMessages E (messages st) u))])))
    as [evs [Hc Hbc]].
  rewrite Hc. simpl. rewrite Htc. simpl.
  exists evs. split; [|exact Hbc].
  unfold bind, append, emit, ret. simpl. by rewrite <- !app_assoc.
Qed.

Lemma run_answers_without_tools_witness :
  exists evs,
    run echoEnv (sw "hi") (mkState [] []) =
      (inl (sw "hello"),
       mkState (trimHistoryIfNeeded (composeMessages echoEnv [] (sw "hi"))
                ++ [assistantMsg (sw "hello") None])
               ([EvThinking; EvBackendCall (trimHistoryIfNeeded (composeMessages echoEnv [] (sw "hi")))]
                ++ evs ++ [EvResponse (sw "hello")])) /\
    backendCalls evs = 0.
Proof.
  exact (run_answers_without_tools echoEnv (sw "hi") (mkState [] [])
           _ 1 [mkChunk (Some (sw "hello")) None] eq_refl eq_refl eq_refl eq_refl).
Defined.

(** Whether [handleToolCall] asks for confirmation, and whether it runs
    the tool. *)
Definition asks (E : AgentEnv) (tc : ToolCall) : bool :=
  negb (autoApprove (config E)) && requiresConfirmation E (tc_name tc)
  && match onToolConfirmation E with Some _ => true | None => false end.

Definition runsTool (E : AgentEnv) (tc : ToolCall) : bool :=
  negb (negb (autoApprove (config E)) && requiresConfirmation E (tc_name tc)
        && match onToolConfirmation E with Some c => negb (c tc) | None => false end).

(** [handleToolCall] reports the call first; it asks for confirmation
    exactly when the tool requires confirmation, auto-approval is off and
    a delegate is set, and it runs the tool unless that delegate then
    rejects it (no delegate counts as approval). *)
Theorem tool_gating_exact (E : AgentEnv) (tc : ToolCall) (st : AgentState) :
  exists evs,
    events (snd (handleToolCall E tc st)) = events st ++ EvToolCall tc :: evs /\
    (In (EvConfirm tc) evs <-> asks E tc = true) /\
    (In (EvExecute tc) evs <-> runsTool E tc = true).
Proof.
  unfold handleToolCall, asks, runsTool.
  destruct (autoApprove (config E)); simpl.
  - agent_unfold. unfold executeTool. agent_unfold.
    destruct (toolExecute E _ _); simpl;
      eexists; (split; [by rewrite <- !app_assoc|]);
      (split; [split; [intros H; repeat destruct H as [H|H]; try discriminate; contradiction
                      | discriminate]|]);
      (split; [intros _; reflexivity | intros _; left; reflexivity]).
  - destruct (requiresConfirmation E (tc_name tc)); simpl.
    + destruct (onToolConfirmation E) as [c|]; simpl.
      * agent_unfold. destruct (c tc); simpl.
        -- unfold executeTool. agent_unfold.
           destruct (toolExecute E _ _); simpl;
             eexists; (split; [by rewrite <- !app_assoc|]);
             (split; [split; [intros _; reflexivity | intros _; left; reflexivity]|]);
             (split; [intros _; reflexivity | intros _; right; left; reflexivity]).
        -- eexists. split; [by rewrite <- !app_assoc|].
           split; [split; [intros _; reflexivity | intros _; left; reflexivity]|].
           split; [|discriminate].
           intros H; repeat destruct H as [H|H]; try discriminate; contradiction.
      * agent_unfold. unfold executeTool. agent_unfold.
        destruct (toolExecute E _ _); simpl;
          eexists; (split; [by rewrite <- !app_assoc|]);
          (split; [split; [intros H; repeat destruct H as [H|H]; try discriminate; contradiction
                          | discriminate]|]);
          (split; [intros _; reflexivity | intros _; left; reflexivity]).
    + agent_unfold. unfold executeTool. agent_unfold.
      destruct (toolExecute E _ _); simpl;
        eexists; (split; [by rewrite <- !app_assoc|]);
        (split; [split; [intros H; repeat destruct H as [H|H]; try discriminate; contradiction
                        | discriminate]|]);
        (split; [intros _; reflexivity | intros _; left; reflexivity]).
Qed.

(** Tool calls of a stream are not accumulated: the last chunk that
    carries tool calls determines them, earlier ones are discarded. *)
Theorem streamed_tool_calls_last_wins (pre post : list StreamChunk) (c : StreamChunk)
    (calls : list ToolCall) :
  chunk_toolCalls c = Some calls ->
  (forall c', In c' post -> chunk_toolCalls c' = None) ->
  streamedToolCalls (pre ++ c :: post) = calls.
Proof.
  intros Hc Hpost. unfold streamedToolCalls. rewrite fold_left_app. simpl. rewrite Hc.
  clear Hc. induction post as [|d post IH]; simpl; [reflexivity|].
  rewrite (Hpost d (or_introl eq_refl)). apply IH. intros c' Hin. apply Hpost. right. exact Hin.
Qed.

Definition callA : ToolCall := mkToolCall "1" "calculator" "{}".
Definition callB : ToolCall := mkToolCall "2" "weather" "{}".

Lemma streamed_tool_calls_last_wins_witness :
  streamedToolCalls [mkChunk None (Some [callA]); mkChunk None (Some [callB]);
                     mkChunk (Some (sw "x")) None] = [callB].
Proof.
  apply (streamed_tool_calls_last_wins [mkChunk None (Some [callA])]
           [mkChunk (Some (sw "x")) None] (mkChunk None (Some [callB])) [callB]);
    [reflexivity|].
  intros c' [<-|[]]. reflexivity.
Defined.

End AgentExtras.

(** ** Tool registry *)

Module RegistryExtras.
Import Tools ToolsMore.

Lemma str_eqb_spec (a b : list ascii) : Apple.str_eqb a b = true <-> a = b.
Proof.
  revert b; induction a as [|x a IH]; intros [|y b]; simpl; try (split; congruence).
  rewrite andb_true_iff, IH, Ascii.eqb_eq. split; [intros [-> ->]; reflexivity|].
  intros H; injection H as -> ->. auto.
Qed.

Lemma str_eqb_refl (a : list ascii) : Apple.str_eqb a a = true.
Proof. by apply str_eqb_spec. Qed.

Lemma str_eqb_neq (a b : list ascii) : a <> b -> Apple.str_eqb a b = false.
Proof.
  intros H. destruct (Apple.str_eqb a b) eqn:E; [|reflexivity].
  apply str_eqb_spec in E. contradiction.
Qed.

Lemma map_get_set (m : Registry) (k k' : list ascii) (v : AnyTool) :
  map_get (map_set m k v) k' = if Apple.str_eqb k' k then Some v else map_get m k'.
Proof.
  induction m as [|[k0 v0] m IH]; simpl.
  - reflexivity.
  - destruct (Apple.str_eqb k k0) eqn:Hk; simpl.
    + apply str_eqb_spec in Hk as ->. destruct (Apple.str_eqb k' k0); reflexivity.
    + rewrite IH. destruct (Apple.str_eqb k' k0) eqn:Hk'; [|reflexivity].
      apply str_eqb_spec in Hk' as ->.
      destruct (Apple.str_eqb k0 k) eqn:H2; [|reflexivity].
      apply str_eqb_spec in H2 as ->. rewrite str_eqb_refl in Hk. discriminate.
Qed.

Lemma map_get_none_notin (m : Registry) (k : list ascii) :
  map_get m k = None -> ~ In k (map fst m).
Proof.
  induction m as [|[k0 v0] m IH]; simpl; [auto|].
  destruct (Apple.str_eqb k k0) eqn:Hk; [discriminate|].
  intros H [->|Hin]; [rewrite str_eqb_refl in Hk; discriminate | exact (IH H Hin)].
Qed.

Lemma map_set_keys (m : Registry) (k : list ascii) (v : AnyTool) :
  map fst (map_set m k v) =
    match map_get m k with Some _ => map fst m | None => map fst m ++ [k] end.
Proof.
  induction m as [|[k0 v0] m IH]; simpl; [reflexivity|].
  destruct (Apple.str_eqb k k0) eqn:Hk; simpl; [reflexivity|].
  rewrite IH. destruct (map_get m k); reflexivity.
Qed.

(** [register(tool)] then [get(tool.name)] gives that tool, other names
    are unaffected, and the name order ([getToolNames]) is kept when the
    name was registered already and extended at the end otherwise, so
    names stay unique. *)
Theorem register_get (m : Registry) (t : AnyTool) (k : list ascii) :
  get (register m t) (tool_name t) = Some t /\
  (k <> tool_name t -> get (register m t) k = get m k) /\
  getToolNames (register m t) =
    (match get m (tool_name t) with
     | Some _ => getToolNames m
     | None => getToolNames m ++ [tool_name t]
     end) /\
  (NoDup (getToolNames m) -> NoDup (getToolNames (register m t))).
Proof.
  unfold get, register, getToolNames. split; [|split; [|split]].
  - rewrite map_get_set, str_eqb_refl. reflexivity.
  - intros Hne. rewrite map_get_set, (str_eqb_neq _ _ Hne). reflexivity.
  - apply map_set_keys.
  - intros Hnd. rewrite map_set_keys. destruct (map_get m (tool_name t)) eqn:Hg; [exact Hnd|].
    apply NoDup_app. split; [exact Hnd|]. split.
    + intros x Hx Hx'. apply list_elem_of_singleton in Hx' as ->.
      apply list_elem_of_In in Hx. exact (map_get_none_notin m _ Hg Hx).
    + apply NoDup_singleton.
Qed.

Definition toolNamed (name : string) (p : option nat) : AnyTool :=
  mkTool (str name) [] [] (fun v => inl v) p None (fun v => inl v).

Lemma register_get_witness :
  get (register (register [] (toolNamed "bash" (Some 1))) (toolNamed "calculator" (Some 1)))
      (str "bash") = Some (toolNamed "bash" (Some 1)).
Proof.
  rewrite (proj1 (proj2 (register_get (register [] (toolNamed "bash" (Some 1)))
                           (toolNamed "calculator" (Some 1)) (str "bash"))));
    [reflexivity | discriminate].
Defined.

(** [unregister(name)] removes exactly that name: [get] then finds
    nothing for it, every other name is unaffected, and the remaining
    names keep their order. *)
Theorem unregister_get (m : Registry) (name k : list ascii) :
  get (unregister m name) name = None /\
  (k <> name -> get (unregister m name) k = get m k) /\
  getToolNames (unregister m name) = List.filter (fun k' => negb (Apple.str_eqb name k')) (getToolNames m).
Proof.
  unfold get, unregister, getToolNames. split; [|split].
  - induction m as [|[k0 v0] m IH]; simpl; [reflexivity|].
    destruct (Apple.str_eqb name k0) eqn:Hk; simpl; [exact IH|]. rewrite Hk. exact IH.
  - intros Hne. induction m as [|[k0 v0] m IH]; simpl; [reflexivity|].
    destruct (Apple.str_eqb name k0) eqn:Hk; simpl.
    + apply str_eqb_spec in Hk as ->. rewrite (str_eqb_neq _ _ Hne). exact IH.
    + rewrite IH. reflexivity.
  - induction m as [|[k0 v0] m IH]; simpl; [reflexivity|].
    destruct (Apple.str_eqb name k0); simpl; [exact IH|]. by rewrite IH.
Qed.

Lemma unregister_get_witness :
  get (unregister (register (register [] (toolNamed "bash" (Some 1))) (toolNamed "calculator" (Some 1)))
         (str "bash")) (str "calculator") = Some (toolNamed "calculator" (Some 1)).
Proof.
  rewrite (proj1 (proj2 (unregister_get
     (register (register [] (toolNamed "bash" (Some 1))) (toolNamed "calculator" (Some 1)))
     (str "bash") (str "calculator")))); [reflexivity | discriminate].
Defined.

Lemma list_find_app {A} (f : A -> bool) (l1 l2 : list A) :
  List.find f (l1 ++ l2) = match List.find f l1 with Some x => Some x | None => List.find f l2 end.
Proof. induction l1 as [|x l1 IH]; simpl; [reflexivity|]. destruct (f x); [reflexivity|exact IH]. Qed.

(** After [registerMany(tools)] a name maps to the last tool of that name
    in [tools], or to what it mapped to before when [tools] has none. *)
Theorem registerMany_get (m : Registry) (tools : list AnyTool) (k : list ascii) :
  get (registerMany m tools) k =
    match List.find (fun t => Apple.str_eqb k (tool_name t)) (rev tools) with
    | Some t => Some t
    | None => get m k
    end.
Proof.
  unfold registerMany, get. revert m. induction tools as [|t ts IH]; intros m; simpl; [reflexivity|].
  rewrite IH. unfold register. rewrite map_get_set.
  rewrite list_find_app. simpl.
  destruct (List.find _ (rev ts)); [reflexivity|].
  destruct (Apple.str_eqb k (tool_name t)); reflexivity.
Qed.

Lemma filter_sublist {A} (f g : A -> bool) (l : list A) :
  (forall x, f x = true -> g x = true) ->
  sublist (List.filter f l) (List.filter g l).
Proof.
  intros Hfg. induction l as [|x l IH]; simpl; [constructor|].
  destruct (f x) eqn:Hf.
  - rewrite (Hfg x Hf). apply sublist_skip, IH.
  - destruct (g x); [apply sublist_cons, IH | exact IH].
Qed.

Lemma map_sublist {A B} (f : A -> B) (l1 l2 : list A) :
  sublist l1 l2 -> sublist (map f l1) (map f l2).
Proof. induction 1; simpl; constructor; assumption. Qed.

(** The core definitions are a sub-sequence of the important ones, in the
    same order. *)
Theorem core_sublist_important (m : Registry) :
  sublist (getCoreDefinitions m) (getImportantDefinitions m).
Proof.
  unfold getCoreDefinitions, getImportantDefinitions. apply map_sublist.
  apply filter_sublist. intros t. unfold priorityOf.
  destruct (tool_priority t) as [[|[|p]]|]; simpl; congruence.
Qed.

End RegistryExtras.

(** ** The OpenAI retry loop and stream parser *)

Module OpenAIExtras.
Import Tools OpenAI.

(** The calls and waits of [k] failed attempts followed by attempt [k]. *)
Definition retryTrace (k : nat) : list ChatEvent :=
  flat_map (fun j => [DoChat j; Sleep (1000 * 2 ^ Z.of_nat j)]) (seq 0 k) ++ [DoChat k].

(** [chat] tries [doChat] at attempts [0 .. k] for some [k <= 3]: every
    attempt before [k] threw a retryable error and was followed by a wait
    of [1000 * 2^j] ms (the 10000 ms cap is never reached); attempt [k]
    decides the outcome, its response or its error converted to an
    [Error], and it is the last one because it succeeded, its error was
    not retryable, or it was attempt 3. *)
Theorem chat_retry_trace {Resp : Type} (doChat : nat -> Resp + Thrown) :
  exists k, k <= maxRetries /\
    (forall j, j < k -> exists e, doChat j = inr e /\ isRetryableError e = true) /\
    snd (chat doChat) = retryTrace k /\
    fst (chat doChat) =
      match doChat k with inl r => inl r | inr e => inr (Some (toError e)) end /\
    (forall e, doChat k = inr e -> k = maxRetries \/ isRetryableError e = false).
Proof.
  unfold chat, maxRetries. simpl.
  destruct (doChat 0) as [r0|e0] eqn:H0.
  { exists 0. rewrite H0. repeat split; try lia || reflexivity; congruence. }
  destruct (isRetryableError e0) eqn:R0; simpl;
    [|exists 0; rewrite H0; repeat split; try lia || reflexivity;
      intros e He; injection He as <-; auto].
  destruct (doChat 1) as [r1|e1] eqn:H1.
  { exists 1. rewrite H1. repeat split; try lia || reflexivity; [|congruence].
    intros j Hj. assert (j = 0) as -> by lia. eauto. }
  destruct (isRetryableError e1) eqn:R1; simpl;
    [|exists 1; rewrite H1; repeat split; try lia || reflexivity;
      [intros j Hj; assert (j = 0) as -> by lia; eauto
      | intros e He; injection He as <-; auto]].
  destruct (doChat 2) as [r2|e2] eqn:H2.
  { exists 2. rewrite H2. repeat split; try lia || reflexivity; [|congruence].
    intros j Hj. assert (j = 0 \/ j = 1) as [-> | ->] by lia; eauto. }
  destruct (isRetryableError e2) eqn:R2; simpl;
    [|exists 2; rewrite H2; repeat split; try lia || reflexivity;
      [intros j Hj; assert (j = 0 \/ j = 1) as [-> | ->] by lia; eauto
      | intros e He; injection He as <-; auto]].
  destruct (doChat 3) as [r3|e3] eqn:H3;
    exists 3; rewrite H3; repeat split; try lia || reflexivity;
    try (intros j Hj; assert (j = 0 \/ j = 1 \/ j = 2) as [-> | [-> | ->]] by lia; eauto);
    intros e He; auto.
Qed.

(** [split_nl] as the complete lines and the unterminated rest. *)
Fixpoint splitL (s : list ascii) : list (list ascii) * list ascii :=
  match s with
  | [] => ([], [])
  | c :: s' =>
      let '(ls, r) := splitL s' in
      if Ascii.eqb c "010"%char then ([] :: ls, r)
      else match ls with
           | [] => ([], c :: r)
           | l :: ls' => ((c :: l) :: ls', r)
           end
  end.

Lemma split_nl_splitL (s : list ascii) :
  split_nl s = fst (splitL s) ++ [snd (splitL s)].
Proof.
  induction s as [|c s IH]; [reflexivity|]. simpl. rewrite IH.
  destruct (splitL s) as [ls r]. simpl.
  destruct (Ascii.eqb c "010"%char); [reflexivity|]. destruct ls; reflexivity.
Qed.

Lemma splitL_app (s t : list ascii) :
  splitL (s ++ t) =
    (fst (splitL s) ++ fst (splitL (snd (splitL s) ++ t)),
     snd (splitL (snd (splitL s) ++ t))).
Proof.
  induction s as [|c s IH]; simpl.
  - destruct (splitL t); reflexivity.
  - rewrite IH. destruct (splitL s) as [ls1 r1] eqn:E1. simpl.
    destruct (splitL (r1 ++ t)) as [ls2 r2] eqn:E2. simpl.
    destruct (Ascii.eqb c "010"%char) eqn:Hc; simpl; [rewrite E2; reflexivity|].
    destruct ls1 as [|l ls1]; simpl; rewrite ?E2, ?Hc; [|reflexivity].
    destruct ls2; reflexivity.
Qed.

Lemma splitL_rest_no_nl (s : list ascii) : ~ In "010"%char (snd (splitL s)).
Proof.
  induction s as [|c s IH]; simpl; [tauto|].
  destruct (splitL s) as [ls r]. simpl in *.
  destruct (Ascii.eqb c "010"%char) eqn:Hc; [exact IH|].
  destruct ls; simpl; [|exact IH].
  intros [Heq | H]; [rewrite Heq in Hc; discriminate Hc | exact (IH H)].
Qed.

Lemma splitL_no_nl (s : list ascii) : ~ In "010"%char s -> splitL s = ([], s).
Proof.
  induction s as [|c s IH]; intros Hn; [reflexivity|]. simpl.
  rewrite IH by (intros H; apply Hn; right; exact H).
  destruct (Ascii.eqb c "010"%char) eqn:Hc; [|reflexivity].
  apply Ascii.eqb_eq in Hc as ->. exfalso. apply Hn. left. reflexivity.
Qed.

Section StreamFacts.
Variable parseDelta : list ascii -> option Delta.

Definition setBuf (st : SState) (b : list ascii) : SState :=
  mkSState (s_content st) (s_map st) b (s_chunks st).

Lemma processLine_setBuf (st : SState) (b line : list ascii) :
  processLine parseDelta (setBuf st b) line = setBuf (processLine parseDelta st line) b.
Proof.
  unfold processLine, setBuf. destruct st as [c m b0 ch]; simpl.
  destruct (_ || _); [reflexivity|].
  destruct (parseDelta _) as [[dc dt]|]; [|reflexivity]. simpl.
  destruct dc as [[|x xs]|]; destruct dt; reflexivity.
Qed.

Lemma fold_processLine_setBuf (ls : list (list ascii)) (st : SState) (b : list ascii) :
  fold_left (processLine parseDelta) ls (setBuf st b) =
  setBuf (fold_left (processLine parseDelta) ls st) b.
Proof.
  revert st. induction ls as [|l ls IH]; intros st; simpl; [reflexivity|].
  rewrite processLine_setBuf. apply IH.
Qed.

Lemma setBuf_setBuf st b b' : setBuf (setBuf st b) b' = setBuf st b'.
Proof. reflexivity. Qed.

Lemma setBuf_same st : setBuf st (s_buffer st) = st.
Proof. destruct st; reflexivity. Qed.

Lemma fold_processRead (reads : list (list ascii)) (st : SState) :
  ~ In "010"%char (s_buffer st) ->
  fold_left (processRead parseDelta) reads st =
    setBuf (fold_left (processLine parseDelta) (fst (splitL (s_buffer st ++ concat reads))) st)
           (snd (splitL (s_buffer st ++ concat reads))).
Proof.
  revert st. induction reads as [|v vs IH]; intros st Hb; simpl.
  - rewrite app_nil_r, (splitL_no_nl _ Hb). simpl. symmetry. apply setBuf_same.
  - unfold processRead at 2. rewrite split_nl_splitL, removelast_last, last_last.
    change (mkSState (s_content st) (s_map st) (snd (splitL (s_buffer st ++ v))) (s_chunks st))
      with (setBuf st (snd (splitL (s_buffer st ++ v)))).
    rewrite fold_processLine_setBuf.
    rewrite IH by (simpl; apply splitL_rest_no_nl).
    simpl. rewrite app_assoc, (splitL_app (s_buffer st ++ v) (concat vs)). simpl.
    rewrite fold_left_app, fold_processLine_setBuf. reflexivity.
Qed.

End StreamFacts.

(** [processStream] reads its body line by line: the response and the
    [onChunk] calls are those of the complete lines of the concatenated
    body, processed in order, however the body is split into reads; a
    final piece without a line break is never processed, so appending
    such a piece changes nothing. *)
Theorem processStream_lines (parseDelta : list ascii -> option Delta)
    (reads : list (list ascii)) (tail : list ascii) :
  processStream parseDelta (Some reads) =
    (let st := fold_left (processLine parseDelta)
                 (List.removelast (split_nl (concat reads))) initSState in
     inl (finishStream st, s_chunks st)) /\
  processStream parseDelta (Some reads) = processStream parseDelta (Some [concat reads]) /\
  (~ In "010"%char tail ->
   processStream parseDelta (Some (reads ++ [tail])) = processStream parseDelta (Some reads)).
Proof.
  assert (Hall : forall rs, processStream parseDelta (Some rs) =
    (let st := fold_left (processLine parseDelta)
                 (List.removelast (split_nl (concat rs))) initSState in
     inl (finishStream st, s_chunks st))).
  { intros rs. unfold processStream.
    rewrite (fold_processRead parseDelta rs initSState) by (simpl; tauto).
    simpl. rewrite split_nl_splitL, removelast_last. reflexivity. }
  split; [apply Hall|]. split.
  - rewrite !Hall. simpl. rewrite app_nil_r. reflexivity.
  - intros Ht. rewrite !Hall. rewrite concat_app. simpl. rewrite app_nil_r.
    rewrite !split_nl_splitL, !removelast_last, splitL_app.
    rewrite (splitL_no_nl _ (fun H => match in_app_or _ _ _ H with
                                     | or_introl H1 => splitL_rest_no_nl _ H1
                                     | or_intror H2 => Ht H2 end)).
    simpl. rewrite app_nil_r. reflexivity.
Qed.

Section ContentFacts.
Variable parseDelta : list ascii -> option Delta.

Definition contentInv (st : SState) : Prop :=
  s_content st = concat (s_chunks st) /\ Forall (fun c => c <> []) (s_chunks st).

Lemma processLine_inv (st : SState) (line : list ascii) :
  contentInv st -> contentInv (processLine parseDelta st line).
Proof.
  intros [Hc Hf]. unfold processLine.
  destruct (_ || _); [split; assumption|].
  destruct (parseDelta _) as [[dc dt]|]; [|split; assumption]. simpl.
  assert (H1 : contentInv (match dc with
          | Some ((_ :: _) as c) =>
              mkSState (s_content st ++ c) (s_map st) (s_buffer st) (s_chunks st ++ [c])
          | _ => st end)).
  { destruct dc as [[|x xs]|]; try (split; assumption).
    split; simpl.
    - rewrite Hc, concat_app. simpl. rewrite app_nil_r. reflexivity.
    - apply Forall_app. split; [exact Hf|]. constructor; [intros Hn; discriminate Hn | constructor]. }
  destruct dt; [|exact H1]. destruct H1 as [H1c H1f]. split; assumption.
Qed.

Lemma fold_processLine_inv (ls : list (list ascii)) (st : SState) :
  contentInv st -> contentInv (fold_left (processLine parseDelta) ls st).
Proof.
  revert st. induction ls as [|l ls IH]; intros st H; simpl; [exact H|].
  apply IH, processLine_inv, H.
Qed.

Lemma fold_processRead_inv (reads : list (list ascii)) (st : SState) :
  contentInv st -> contentInv (fold_left (processRead parseDelta) reads st).
Proof.
  revert st. induction reads as [|v vs IH]; intros st H; simpl; [exact H|].
  apply IH. unfold processRead. apply fold_processLine_inv. exact H.
Qed.

End ContentFacts.

(** The content of the streamed response is exactly the concatenation of
    the strings passed to [onChunk], each of them non-empty, and it is
    [null] exactly when [onChunk] was never called. *)
Theorem processStream_content (parseDelta : list ascii -> option Delta)
    (reads : list (list ascii)) :
  exists resp calls,
    processStream parseDelta (Some reads) = inl (resp, calls) /\
    Forall (fun c => c <> []) calls /\
    r_content resp = match calls with [] => None | _ => Some (concat calls) end.
Proof.
  unfold processStream.
  destruct (fold_processRead_inv parseDelta reads initSState) as [Hc Hf];
    [split; [reflexivity | constructor]|].
  eexists _, _. split; [reflexivity|]. split; [exact Hf|].
  unfold finishStream. simpl. rewrite Hc.
  destruct (s_chunks _) as [|c cs]; [reflexivity|].
  inversion Hf as [|? ? Hne]; subst. simpl.
  destruct c; [contradiction|reflexivity].
Qed.

(** The keys of [toolCallsMap] in order of first appearance. *)
Definition firstOcc (l : list nat) : list nat :=
  fold_left (fun acc i => if existsb (Nat.eqb i) acc then acc else acc ++ [i]) l [].

Definition idOf (tc : TCDelta) : OId :=
  match tc_id tc with Some ((_ :: _) as id) => GivenId id | _ => GeneratedId (tc_index tc) end.

(** The arguments of all fragments of index [i], in order. *)
Definition argsOf (tcs : list TCDelta) (i : nat) : list ascii :=
  concat (map (fun tc => or_empty (tc_arguments tc))
              (List.filter (fun tc => tc_index tc =? i) tcs)).

Lemma tcm_get_snoc (m : ToolCallsMap) k v i :
  tcm_get (m ++ [(k, v)]) i =
    match tcm_get m i with Some x => Some x | None => if k =? i then Some v else None end.
Proof.
  induction m as [|[k0 v0] m IH]; simpl; [reflexivity|].
  destruct (k0 =? i); [reflexivity | exact IH].
Qed.

Lemma tcm_get_append (m : ToolCallsMap) k a i :
  tcm_get (tcm_append m k a) i =
    if k =? i
    then option_map (fun v => mkOCall (oc_id v) (oc_name v) (oc_arguments v ++ a)) (tcm_get m i)
    else tcm_get m i.
Proof.
  induction m as [|[k0 v0] m IH]; simpl; [destruct (k =? i); reflexivity|].
  destruct (k0 =? k) eqn:Hk; simpl.
  - apply Nat.eqb_eq in Hk as ->. destruct (k =? i); reflexivity.
  - destruct (k0 =? i) eqn:Hi; [|exact IH].
    apply Nat.eqb_eq in Hi as ->. rewrite Nat.eqb_sym, Hk. reflexivity.
Qed.

Lemma tcm_append_keys (m : ToolCallsMap) k a : map fst (tcm_append m k a) = map fst m.
Proof.
  induction m as [|[k0 v0] m IH]; simpl; [reflexivity|].
  destruct (k0 =? k); simpl; [reflexivity | by rewrite IH].
Qed.

Lemma tcm_get_none_keys (m : ToolCallsMap) i :
  tcm_get m i = None <-> existsb (Nat.eqb i) (map fst m) = false.
Proof.
  induction m as [|[k0 v0] m IH]; simpl; [tauto|].
  destruct (Nat.eqb_spec k0 i) as [->|Hne]; simpl.
  - rewrite Nat.eqb_refl. simpl. split; intros Hn; discriminate Hn.
  - apply Nat.eqb_neq in Hne. rewrite Nat.eqb_sym, Hne. exact IH.
Qed.

Lemma find_none_filter {A} (f : A -> bool) (l : list A) :
  List.find f l = None -> List.filter f l = [].
Proof.
  induction l as [|x l IH]; simpl; [reflexivity|].
  destruct (f x); [discriminate | exact IH].
Qed.

Lemma argsOf_snoc (tcs : list TCDelta) t i :
  argsOf (tcs ++ [t]) i =
    argsOf tcs i ++ (if tc_index t =? i then or_empty (tc_arguments t) else []).
Proof.
  unfold argsOf. rewrite List.filter_app, map_app, concat_app. simpl.
  destruct (tc_index t =? i); simpl; rewrite ?app_nil_r; reflexivity.
Qed.

(** Folding [processToolDelta] over the tool-call fragments of a stream
    gives one entry per distinct [index], in order of first appearance;
    the entry of an index takes its id (the given non-empty id, or a
    generated one) and its name from the first fragment of that index,
    and its arguments are the concatenation of the arguments of all its
    fragments in stream order. *)
Theorem tool_call_fragments (tcs : list TCDelta) :
  map fst (fold_left processToolDelta tcs []) = firstOcc (map tc_index tcs) /\
  forall i, tcm_get (fold_left processToolDelta tcs []) i =
    option_map (fun f => mkOCall (idOf f) (or_empty (tc_name f)) (argsOf tcs i))
      (List.find (fun tc => tc_index tc =? i) tcs).
Proof.
  induction tcs as [|t tcs IH] using rev_ind; [split; [reflexivity | intros i; reflexivity]|].
  destruct IH as [IHk IHg].
  unfold firstOcc. rewrite map_app, !fold_left_app. fold (firstOcc (map tc_index tcs)).
  simpl. rewrite <- IHk.
  set (m := fold_left processToolDelta tcs []) in *.
  unfold processToolDelta. destruct (tcm_get m (tc_index t)) as [v|] eqn:Hg.
  - assert (Hex : existsb (Nat.eqb (tc_index t)) (map fst m) = true).
    { destruct (existsb _ _) eqn:He; [reflexivity|].
      apply tcm_get_none_keys in He. congruence. }
    rewrite Hex. split; [apply tcm_append_keys|].
    intros i. rewrite tcm_get_append, RegistryExtras.list_find_app, argsOf_snoc.
    rewrite IHg in *.
    destruct (tc_index t =? i) eqn:Hi.
    + apply Nat.eqb_eq in Hi as <-.
      destruct (List.find _ tcs); simpl in *; [|discriminate].
      rewrite ?Nat.eqb_refl; reflexivity.
    + rewrite app_nil_r.
      destruct (List.find (fun tc => tc_index tc =? i) tcs); simpl; rewrite ?Hi; reflexivity.
  - assert (Hex : existsb (Nat.eqb (tc_index t)) (map fst m) = false)
      by (apply tcm_get_none_keys, Hg).
    rewrite Hex, map_app. split; [reflexivity|].
    intros i. rewrite tcm_get_snoc, RegistryExtras.list_find_app, argsOf_snoc, IHg.
    rewrite IHg in Hg.
    destruct (List.find (fun tc => tc_index tc =? i) tcs) eqn:Hf.
    { destruct (tc_index t =? i) eqn:Hi.
      - apply Nat.eqb_eq in Hi. subst i. rewrite Hf in Hg. discriminate Hg.
      - simpl. rewrite app_nil_r. reflexivity. }
    simpl. destruct (tc_index t =? i) eqn:Hi; [|reflexivity].
    apply Nat.eqb_eq in Hi as <-. unfold argsOf. rewrite (find_none_filter _ _ Hf). simpl.
    rewrite ?app_nil_r. unfold idOf. reflexivity.
Qed.

End OpenAIExtras.

(** ** Provider detection *)

Module RegistryMoreFacts.
Import ProviderRegistry ProviderRegistryMore.

Definition noneAvailable (B : ProviderBehaviour) (s : RegistryState) (ids : list string) : Prop :=
  forall id p st, In id ids -> providers s !! id = Some p ->
    checkAvailability B p = inl st -> available st = false.

(** [p] is the provider of the first id of [ids] whose check reported it
    available; the checks of the registered ids before it reported them
    unavailable or threw. *)
Definition firstAvailable (B : ProviderBehaviour) (s : RegistryState) (ids : list string)
    (p : Provider) (st : ProviderStatus) : Prop :=
  checkAvailability B p = inl st /\ available st = true /\
  exists pre id post, ids = pre ++ id :: post /\ providers s !! id = Some p /\
    noneAvailable B s pre.

Lemma tryInOrder_spec (B : ProviderBehaviour) (ids : list string) (s : RegistryState) :
  providers (snd (tryInOrder B ids s)) = providers s /\
  activeProvider (snd (tryInOrder B ids s)) = activeProvider s /\
  match fst (tryInOrder B ids s) with
  | Some (p, st) => firstAvailable B s ids p st
  | None => noneAvailable B s ids
  end.
Proof.
  revert s. induction ids as [|id ids IH]; intros s; simpl.
  - split; [reflexivity|]. split; [reflexivity|]. intros ? ? ? [].
  - destruct (providers s !! id) as [p|] eqn:Hp.
    + destruct (checkAvailability B p) as [st|e] eqn:Hc.
      * destruct (available st) eqn:Ha.
        { split; [reflexivity|]. split; [reflexivity|]. split; [exact Hc|]. split; [exact Ha|].
          exists [], id, ids. split; [reflexivity|]. split; [exact Hp|]. intros ? ? ? []. }
        destruct (IH (logCall (EvCheckAvailability p) s)) as (Hpr & Hac & Hr).
        split; [exact Hpr|]. split; [exact Hac|].
        destruct (fst (tryInOrder B ids _)) as [[p' st']|].
        -- destruct Hr as (Hc' & Ha' & pre & id' & post & -> & Hp' & Hn).
           split; [exact Hc'|]. split; [exact Ha'|].
           exists (id :: pre), id', post. split; [reflexivity|]. split; [exact Hp'|].
           intros i q t [<- | Hi] Hq Ht; [congruence | exact (Hn i q t Hi Hq Ht)].
        -- intros i q t [<- | Hi] Hq Ht; [congruence | exact (Hr i q t Hi Hq Ht)].
      * destruct (IH (logCall (EvCheckAvailability p) s)) as (Hpr & Hac & Hr).
        split; [exact Hpr|]. split; [exact Hac|].
        destruct (fst (tryInOrder B ids _)) as [[p' st']|].
        -- destruct Hr as (Hc' & Ha' & pre & id' & post & -> & Hp' & Hn).
           split; [exact Hc'|]. split; [exact Ha'|].
           exists (id :: pre), id', post. split; [reflexivity|]. split; [exact Hp'|].
           intros i q t [<- | Hi] Hq Ht; [congruence | exact (Hn i q t Hi Hq Ht)].
        -- intros i q t [<- | Hi] Hq Ht; [congruence | exact (Hr i q t Hi Hq Ht)].
    + destruct (IH s) as (Hpr & Hac & Hr).
      split; [exact Hpr|]. split; [exact Hac|].
      destruct (fst (tryInOrder B ids s)) as [[p' st']|].
      * destruct Hr as (Hc' & Ha' & pre & id' & post & -> & Hp' & Hn).
        split; [exact Hc'|]. split; [exact Ha'|].
        exists (id :: pre), id', post. split; [reflexivity|]. split; [exact Hp'|].
        intros i q t [<- | Hi] Hq Ht; [congruence | exact (Hn i q t Hi Hq Ht)].
      * intros i q t [<- | Hi] Hq Ht; [congruence | exact (Hr i q t Hi Hq Ht)].
Qed.

(** [detectProvider] leaves the registered and the active provider
    alone.  It throws only what the preferred provider's check threw; the
    provider it returns was reported available, and it is the preferred
    provider or the first provider of the priority order whose check
    reported it available; it returns [null] only when no provider of the
    priority order and not the preferred one reported itself available. *)
Theorem detectProvider_outcome (B : ProviderBehaviour) (pref : option string)
    (s : RegistryState) :
  providers (snd (detectProvider B pref s)) = providers s /\
  activeProvider (snd (detectProvider B pref s)) = activeProvider s /\
  match fst (detectProvider B pref s) with
  | inr e => exists pid p, pref = Some pid /\ providers s !! pid = Some p /\
               checkAvailability B p = inr e
  | inl (Some (p, st)) =>
      (exists pid, pref = Some pid /\ providers s !! pid = Some p /\
         checkAvailability B p = inl st /\ available st = true) \/
      firstAvailable B s priorityOrder p st
  | inl None =>
      noneAvailable B s priorityOrder /\
      (forall pid p st, pref = Some pid -> pid <> ""%string -> providers s !! pid = Some p ->
         checkAvailability B p = inl st -> available st = false)
  end.
Proof.
  assert (Hfb : forall s', providers s' = providers s ->
    let r := (let '(r, s'') := tryInOrder B priorityOrder s' in (inl r, s'') :
                (option (Provider * ProviderStatus) + string) * RegistryState) in
    providers (snd r) = providers s' /\ activeProvider (snd r) = activeProvider s' /\
    match fst r with
    | inl (Some (p, st)) => firstAvailable B s priorityOrder p st
    | inl None => noneAvailable B s priorityOrder
    | inr _ => False
    end).
  { intros s' Hs'. destruct (tryInOrder_spec B priorityOrder s') as (H1 & H2 & H3).
    destruct (tryInOrder B priorityOrder s') as [[[p st]|] s''] eqn:E; simpl in *;
      (split; [exact H1|]; split; [exact H2|]).
    - destruct H3 as (Hc & Ha & pre & id & post & Ho & Hp & Hn).
      split; [exact Hc|]. split; [exact Ha|]. exists pre, id, post.
      rewrite <- Hs'. split; [exact Ho|]. split; [exact Hp|].
      intros i q t Hi. rewrite <- Hs'. exact (Hn i q t Hi).
    - intros i q t Hi. rewrite <- Hs'. exact (H3 i q t Hi). }
  unfold detectProvider.
  destruct pref as [pid|].
  2:{ destruct (Hfb s eq_refl) as (H1 & H2 & H3).
      destruct (tryInOrder B priorityOrder s) as [[[p st]|] s''];
        simpl in *; (split; [exact H1|]; split; [exact H2|]); [right; exact H3|].
      split; [exact H3 | intros ? ? ? Hd; discriminate Hd]. }
  destruct (String.eqb pid "") eqn:He.
  { apply String.eqb_eq in He as ->. destruct (Hfb s eq_refl) as (H1 & H2 & H3).
    destruct (tryInOrder B priorityOrder s) as [[[p st]|] s''];
      simpl in *; (split; [exact H1|]; split; [exact H2|]); [right; exact H3|].
    split; [exact H3|]. intros q p st Hq Hne. injection Hq as <-. contradiction. }
  destruct (providers s !! pid) as [p0|] eqn:Hp0.
  2:{ destruct (Hfb s eq_refl) as (H1 & H2 & H3).
      destruct (tryInOrder B priorityOrder s) as [[[p st]|] s''];
        simpl in *; (split; [exact H1|]; split; [exact H2|]); [right; exact H3|].
      split; [exact H3|]. intros q p st Hq _ Hp. injection Hq as <-. congruence. }
  destruct (checkAvailability B p0) as [st0|e] eqn:Hc0.
  2:{ split; [reflexivity|]. split; [reflexivity|]. simpl. eauto. }
  destruct (available st0) eqn:Ha0.
  { split; [reflexivity|]. split; [reflexivity|]. simpl. left. eauto. }
  destruct (Hfb (logCall (EvCheckAvailability p0) s) eq_refl) as (H1 & H2 & H3).
  destruct (tryInOrder B priorityOrder _) as [[[p st]|] s''];
    simpl in *; (split; [exact H1|]; split; [exact H2|]); [right; exact H3|].
  split; [exact H3|]. intros q p st Hq _ Hp Hc. injection Hq as <-. congruence.
Qed.

(** Once [getActiveProvider] has chosen a provider it stays active, also
    when its [initialize] threw, and the next call returns it at once
    without further calls; it leaves no provider active only when it threw
    and none was active before. *)
Theorem getActiveProvider_memo (B : ProviderBehaviour) (pref : option string)
    (s : RegistryState) :
  match activeProvider (snd (getActiveProvider B pref s)) with
  | None => activeProvider s = None /\ exists e, fst (getActiveProvider B pref s) = inr e
  | Some p =>
      getActiveProvider B pref (snd (getActiveProvider B pref s)) =
        (inl p, snd (getActiveProvider B pref s)) /\
      (fst (getActiveProvider B pref s) = inl p \/
       (hasInitialize p = true /\ exists e, initializeOutcome B p = Some e /\
          fst (getActiveProvider B pref s) = inr e))
  end.
Proof.
  destruct (getActiveProvider B pref s) as [r s'] eqn:E. simpl.
  unfold getActiveProvider in E.
  destruct (activeProvider s) as [p|] eqn:Ha.
  { injection E as <- <-. rewrite Ha. unfold getActiveProvider. rewrite Ha.
    split; [reflexivity | left; reflexivity]. }
  destruct (detectProvider_outcome B pref s) as (_ & Hact & _).
  destruct (detectProvider B pref s) as [[[[p st]|]|e] s1]; simpl in *.
  - destruct (hasInitialize p) eqn:Hi; [destruct (initializeOutcome B p) as [e|] eqn:Ho|];
      injection E as <- <-; simpl; unfold getActiveProvider; simpl;
      (split; [reflexivity|]); eauto.
  - injection E as <- <-. rewrite Hact, Ha. eauto.
  - injection E as <- <-. rewrite Hact, Ha. eauto.
Qed.

(** A completed [shutdown] leaves no provider active; a [shutdown] of the
    active provider that throws leaves that provider active. *)
Theorem shutdown_outcome (B : ProviderBehaviour) (s : RegistryState) :
  providers (snd (shutdown B s)) = providers s /\
  match fst (shutdown B s) with
  | inl _ => activeProvider (snd (shutdown B s)) = None
  | inr e => exists p, activeProvider s = Some p /\ hasShutdown p = true /\
               shutdownOutcome B p = Some e /\ activeProvider (snd (shutdown B s)) = Some p
  end.
Proof.
  unfold shutdown. destruct (activeProvider s) as [p|] eqn:Ha; simpl; [|split; reflexivity].
  destruct (hasShutdown p) eqn:Hs; simpl; [|split; reflexivity].
  destruct (shutdownOutcome B p) as [e|] eqn:Ho; simpl; (split; [reflexivity|]); [|reflexivity].
  exists p. rewrite Ha. auto.
Qed.

End RegistryMoreFacts.

(** ** Provider-side message conversion *)

Module ProviderMessageFacts.
Import ProviderMessages.

(** Messages that [convertMessages] passes on: all but the assistant
    messages with neither tool calls nor content. *)
Definition keptByApple (m : TMessage) : bool :=
  match t_role m with
  | TAssistant =>
      hasToolCalls m || match t_content m with Some (_ :: _) => true | _ => false end
  | _ => true
  end.

Definition appleRole (r : TRole) : list ascii :=
  match r with
  | TSystem => str "system"
  | TUser => str "user"
  | TAssistant => str "assistant"
  | TTool => str "user"
  end.

Lemma convertStep_app (result : list (list ascii * list ascii)) (msg : TMessage) :
  convertStep result msg = result ++ convertStep [] msg.
Proof.
  unfold convertStep. destruct (t_role msg); try reflexivity.
  destruct (hasToolCalls msg); [reflexivity|].
  destruct (t_content msg) as [[|x xs]|]; simpl; rewrite ?app_nil_r; reflexivity.
Qed.

Lemma fold_convertStep (ms : list TMessage) (acc : list (list ascii * list ascii)) :
  fold_left convertStep ms acc = acc ++ convertMessages ms.
Proof.
  unfold convertMessages. revert acc. induction ms as [|m ms IH]; intros acc; simpl.
  - rewrite app_nil_r. reflexivity.
  - rewrite (IH (convertStep acc m)), (IH (convertStep [] m)), convertStep_app.
    rewrite app_assoc. reflexivity.
Qed.

Lemma convertMessages_cons (m : TMessage) (ms : list TMessage) :
  convertMessages (m :: ms) = convertStep [] m ++ convertMessages ms.
Proof. unfold convertMessages at 1. simpl. apply fold_convertStep. Qed.

Lemma truncateToolContent_spec (c : list ascii) :
  truncateToolContent c =
    firstn 1500 c ++
      (if length c <=? 1500 then []
       else nl ++ str "... [truncated, " ++ nat_to_str (length c - 1500) ++ str " chars omitted]").
Proof.
  unfold truncateToolContent, MAX_TOOL_RESULT_CHARS.
  destruct (1500 <? length c) eqn:H.
  - apply Nat.ltb_lt in H. replace (length c <=? 1500) with false
      by (symmetry; apply Nat.leb_gt; exact H). reflexivity.
  - apply Nat.ltb_ge in H. replace (length c <=? 1500) with true
      by (symmetry; apply Nat.leb_le; exact H).
    rewrite app_nil_r, firstn_all2 by exact H. reflexivity.
Qed.

Lemma convertStep_kept (m : TMessage) :
  convertStep [] m =
    if keptByApple m then [(appleRole (t_role m), snd (hd ([], []) (convertStep [] m)))] else [].
Proof.
  unfold convertStep, keptByApple. destruct (t_role m); try reflexivity.
  destruct (hasToolCalls m); [reflexivity|].
  destruct (t_content m) as [[|x xs]|]; reflexivity.
Qed.

Lemma convertMessages_map (ms : list TMessage) :
  convertMessages ms =
    map (fun m => (appleRole (t_role m), snd (hd ([], []) (convertStep [] m))))
      (List.filter keptByApple ms).
Proof.
  induction ms as [|m ms IH]; [reflexivity|].
  rewrite convertMessages_cons, convertStep_kept. simpl.
  destruct (keptByApple m); simpl; rewrite IH; reflexivity.
Qed.

(** [convertMessages] yields one message per input message, in order,
    except that assistant messages with neither tool calls nor content are
    dropped.  Each output message comes from the input message at its
    position: system, user and assistant messages keep their role and
    content (an assistant message with tool calls gets a line per call
    after its content), and a tool result becomes a user message that
    shows the model at most its first 1500 characters, a longer one being
    cut there and followed by a note giving the number of characters
    omitted. *)
Theorem convertMessages_shape (ms : list TMessage) :
  length (convertMessages ms) = length (List.filter keptByApple ms) /\
  forall i m, nth_error (List.filter keptByApple ms) i = Some m ->
    exists content,
      nth_error (convertMessages ms) i = Some (appleRole (t_role m), content) /\
      match t_role m with
      | TSystem | TUser => content = contentOr m
      | TAssistant =>
          content =
            if hasToolCalls m then
              (match contentOr m with [] => [] | c => c ++ nl end) ++
              join nl (map (fun tc => str "[Calling tool: " ++ ttc_name tc ++
                                      str " with args: " ++ ttc_arguments tc ++ str "]")
                           (toolCallsOf m))
            else contentOr m
      | TTool =>
          content =
            str "[Tool result from " ++
            (match t_name m with Some ((_ :: _) as n) => n | _ => str "tool" end) ++
            str "]: " ++ firstn 1500 (contentOr m) ++
            (if length (contentOr m) <=? 1500 then []
             else nl ++ str "... [truncated, " ++ nat_to_str (length (contentOr m) - 1500)
                  ++ str " chars omitted]")
      end.
Proof.
  rewrite convertMessages_map. split; [apply length_map|].
  intros i m Hi. rewrite nth_error_map, Hi. simpl.
  eexists. split; [reflexivity|].
  unfold convertStep, contentOr. destruct (t_role m); try reflexivity.
  - destruct (hasToolCalls m); destruct (t_content m) as [[|x xs]|]; simpl;
      rewrite <- ?app_assoc; reflexivity.
  - simpl. rewrite truncateToolContent_spec. reflexivity.
Qed.

(** Leading empty strings removed. *)
Fixpoint dropLeadingEmpty (l : list (list ascii)) : list (list ascii) :=
  match l with
  | [] :: l' => dropLeadingEmpty l'
  | _ => l
  end.

Definition isSystemMsg (m : TMessage) : bool :=
  match t_role m with TSystem => true | _ => false end.

Definition rolePrefix (m : TMessage) : list ascii :=
  match t_role m with
  | TUser => str "User: "
  | TAssistant => str "Assistant: "
  | TTool => str "Tool ("
  | TSystem => []
  end.

Lemma dropLeadingEmpty_snoc (l : list (list ascii)) (c : list ascii) :
  dropLeadingEmpty (l ++ [c]) =
    match dropLeadingEmpty l with [] => dropLeadingEmpty [c] | d => d ++ [c] end.
Proof.
  induction l as [|x l IH]; simpl; [reflexivity|].
  destruct x; [exact IH | reflexivity].
Qed.

Lemma dropLeadingEmpty_head (l : list (list ascii)) :
  match dropLeadingEmpty l with [] => True | d :: _ => d <> [] end.
Proof.
  induction l as [|x l IH]; simpl; [exact I|].
  destruct x; [exact IH | intros H; discriminate H].
Qed.

Lemma join_snoc (sep : list ascii) (l : list (list ascii)) (c : list ascii) :
  l <> [] -> join sep (l ++ [c]) = join sep l ++ sep ++ c.
Proof.
  induction l as [|x l IH]; intros Hl; [contradiction|].
  destruct l as [|y l]; simpl; [reflexivity|].
  simpl in IH. rewrite IH by discriminate. rewrite !app_assoc. reflexivity.
Qed.

Lemma join_cons_nonempty (sep d : list ascii) (ds : list (list ascii)) :
  d <> [] -> join sep (d :: ds) <> [].
Proof.
  intros Hd. destruct ds; simpl; [exact Hd|].
  destruct d; [contradiction | discriminate].
Qed.

Lemma system_step (sep : list ascii) (L : list (list ascii)) (c : list ascii) :
  Some (match match L with
              | [] => None
              | x :: xs => Some (join sep (dropLeadingEmpty (x :: xs)))
              end with
        | Some ((_ :: _) as sp) => sp ++ sep
        | _ => []
        end ++ c) =
  match L ++ [c] with
  | [] => None
  | x :: xs => Some (join sep (dropLeadingEmpty (x :: xs)))
  end.
Proof.
  destruct L as [|c0 cs].
  { simpl. destruct c; reflexivity. }
  change ((c0 :: cs) ++ [c]) with (c0 :: (cs ++ [c])). cbv iota beta.
  rewrite app_comm_cons, dropLeadingEmpty_snoc.
  pose proof (dropLeadingEmpty_head (c0 :: cs)) as Hh.
  destruct (dropLeadingEmpty (c0 :: cs)) as [|d ds] eqn:Ed.
  - simpl. destruct c; reflexivity.
  - rewrite (join_snoc _ (d :: ds)) by discriminate.
    destruct (join sep (d :: ds)) eqn:Ej; [exfalso; exact (join_cons_nonempty _ _ _ Hh Ej)|].
    rewrite app_assoc. reflexivity.
Qed.

(** The system prompt that [buildPrompt] extracts is [null] exactly when
    there is no system message; otherwise it is the contents of all
    system messages joined by blank lines, except that empty contents
    before the first non-empty one leave no trace.  The conversation has
    one part per non-system message, in order, each opening with its
    role's label. *)
Theorem buildPrompt_parts (ms : list TMessage) :
  fst (buildPrompt ms) =
    match map contentOr (List.filter isSystemMsg ms) with
    | [] => None
    | cs => Some (join (nl ++ nl) (dropLeadingEmpty cs))
    end /\
  Forall2 (fun m part => is_prefix (rolePrefix m) part = true)
    (List.filter (fun m => negb (isSystemMsg m)) ms) (snd (buildPromptLoop ms)).
Proof.
  assert (Hfst : forall ms, fst (buildPrompt ms) = fst (buildPromptLoop ms)).
  { intros l. unfold buildPrompt. destruct (buildPromptLoop l); reflexivity. }
  rewrite Hfst. unfold buildPromptLoop.
  induction ms as [|m ms [IH1 IH2]] using rev_ind; [split; [reflexivity | constructor]|].
  rewrite fold_left_app. cbn [fold_left].
  destruct (fold_left buildStep ms (None, [])) as [sp parts] eqn:Ef. cbn [fst snd] in *.
  rewrite !List.filter_app, !map_app.
  remember (List.filter isSystemMsg ms) as S.
  remember (List.filter (fun m => negb (isSystemMsg m)) ms) as N.
  unfold buildStep. cbn [List.filter].
  unfold isSystemMsg at 1 2. destruct (t_role m) eqn:Hr; cbn [negb map app fst snd].
  - split; [|rewrite app_nil_r; exact IH2].
    rewrite IH1. apply system_step.
  - split; [rewrite app_nil_r; exact IH1|].
    apply Forall2_app; [exact IH2|]. constructor; [|constructor].
    unfold rolePrefix. rewrite Hr. reflexivity.
  - destruct (hasToolCalls m); cbn [fst snd]; (split; [rewrite app_nil_r; exact IH1|]);
      (apply Forall2_app; [exact IH2|]; constructor; [|constructor]);
      unfold rolePrefix; rewrite Hr; reflexivity.
  - split; [rewrite app_nil_r; exact IH1|].
    apply Forall2_app; [exact IH2|]. constructor; [|constructor].
    unfold rolePrefix. rewrite Hr. reflexivity.
Qed.

End ProviderMessageFacts.

(** ** The on-device provider's response *)

Module AppleExtras.
Import ModelOutput Apple.

Lemma native_calls_spec (l : list SdkToolCall) (i : nat) :
  let r := (fix go (i : nat) (l : list SdkToolCall) : list OutCall :=
              match l with
              | [] => []
              | tc :: l' =>
                  mkOutCall (match stc_id tc with Some id => SdkId id | None => Generated i end)
                    (stc_name tc) (stc_arguments tc) :: go (S i) l'
              end) i l in
  map (fun c => (oc_name c, oc_arguments c)) r = map (fun tc => (stc_name tc, stc_arguments tc)) l /\
  length r = length l /\
  forall j c, nth_error r j = Some c ->
    match oc_id c with
    | Generated n => n = i + j
    | SdkId id => exists tc, nth_error l j = Some tc /\ stc_id tc = Some id
    end.
Proof.
  revert i. induction l as [|tc l IH]; intros i; simpl.
  - split; [reflexivity|]. split; [reflexivity|]. intros [|j] c H; discriminate H.
  - destruct (IH (S i)) as (H1 & H2 & H3). rewrite H1, H2.
    split; [reflexivity|]. split; [reflexivity|].
    intros [|j] c H; simpl in H.
    + injection H as <-. simpl. destruct (stc_id tc) eqn:Hid; [eauto | lia].
    + specialize (H3 j c H). destruct (oc_id c); [exact H3 | lia].
Qed.

Lemma inline_calls_spec (l : list (list ascii * list ascii)) (i : nat) :
  let r := (fix go (i : nat) (l : list (list ascii * list ascii)) : list OutCall :=
              match l with
              | [] => []
              | (n, a) :: l' => mkOutCall (Generated i) n a :: go (S i) l'
              end) i l in
  map (fun c => (oc_name c, oc_arguments c)) r = l /\
  forall j c, nth_error r j = Some c -> oc_id c = Generated (i + j).
Proof.
  revert i. induction l as [|[n a] l IH]; intros i; simpl.
  - split; [reflexivity|]. intros [|j] c H; discriminate H.
  - destruct (IH (S i)) as (H1 & H2). rewrite H1. split; [reflexivity|].
    intros [|j] c H; simpl in H.
    + injection H as <-. simpl. f_equal. lia.
    + rewrite (H2 j c H). f_equal. lia.
Qed.

(** [createResponse] returns the SDK's tool calls, in order, followed by
    the tool calls parsed from the channel tokens of the text; a call
    without an SDK id is named after its position, [call_<i>].  It never
    returns an empty tool-call array, its content is [null] only for an
    empty text with tool calls, and it is the empty string only when there
    are no tool calls. *)
Theorem createResponse_calls (E : AppleEnv) (raw : list ascii) (tcs : option (list SdkToolCall)) :
  let r := createResponse E raw tcs in
  let calls := match resp_toolCalls r with Some l => l | None => [] end in
  let natives := match tcs with Some l => l | None => [] end in
  resp_toolCalls r <> Some [] /\
  map (fun c => (oc_name c, oc_arguments c)) calls =
    map (fun tc => (stc_name tc, stc_arguments tc)) natives ++
    ModelOutput.toolCalls (parseModelOutput (jsonParses E) raw) /\
  (forall i c, nth_error calls i = Some c ->
     match oc_id c with
     | Generated n => n = i
     | SdkId id => exists tc, nth_error natives i = Some tc /\ stc_id tc = Some id
     end) /\
  (resp_content r = None -> raw = [] /\ calls <> []) /\
  (resp_content r = Some [] -> calls = []).
Proof.
  cbv zeta. unfold createResponse.
  set (natF := fix go (i : nat) (l : list SdkToolCall) : list OutCall :=
              match l with
              | [] => []
              | tc :: l' =>
                  mkOutCall (match stc_id tc with Some id => SdkId id | None => Generated i end)
                    (stc_name tc) (stc_arguments tc) :: go (S i) l'
              end).
  set (inF := fix go (i : nat) (l : list (list ascii * list ascii)) : list OutCall :=
              match l with
              | [] => []
              | (n, a) :: l' => mkOutCall (Generated i) n a :: go (S i) l'
              end).
  set (natives := match tcs with Some l => l | None => [] end).
  set (parsed := parseModelOutput (jsonParses E) raw).
  assert (Hnat : (match tcs with Some l => natF 0 l | None => [] end) = natF 0 natives)
    by (subst natives; destruct tcs; reflexivity).
  rewrite Hnat.
  destruct (native_calls_spec natives 0) as (N1 & N2 & N3). fold natF in N1, N2, N3.
  destruct (inline_calls_spec (ModelOutput.toolCalls parsed) (length (natF 0 natives)))
    as (I1 & I2). fold inF in I1, I2.
  assert (Hall : forall i c, nth_error (natF 0 natives ++ inF (length (natF 0 natives))
                   (ModelOutput.toolCalls parsed)) i = Some c ->
            match oc_id c with
            | Generated n => n = i
            | SdkId id => exists tc, nth_error natives i = Some tc /\ stc_id tc = Some id
            end).
  { intros i c H. destruct (Nat.lt_ge_cases i (length (natF 0 natives))) as [Hi|Hi].
    - rewrite nth_error_app1 in H by exact Hi. exact (N3 i c H).
    - rewrite nth_error_app2 in H by exact Hi. rewrite (I2 _ _ H). lia. }
  assert (Hmap : map (fun c => (oc_name c, oc_arguments c))
                   (natF 0 natives ++ inF (length (natF 0 natives)) (ModelOutput.toolCalls parsed)) =
                 map (fun tc => (stc_name tc, stc_arguments tc)) natives ++ ModelOutput.toolCalls parsed)
    by (rewrite map_app, N1, I1; reflexivity).
  assert (Hraw : str_or (ModelOutput.content parsed) raw = [] -> raw = []).
  { unfold str_or. destruct (ModelOutput.content parsed); [auto | discriminate]. }
  destruct (natF 0 natives ++ inF _ _) as [|c0 cs] eqn:Eall; simpl.
  - split; [discriminate|]. split; [exact Hmap|]. split; [intros [|i] c H; discriminate H|].
    split; [discriminate|]. auto.
  - split; [discriminate|]. split; [exact Hmap|]. split; [exact Hall|].
    destruct (str_or (ModelOutput.content parsed) raw) as [|x xs] eqn:Ec.
    + split; [|discriminate]. intros _. split; [apply Hraw; reflexivity | discriminate].
    + split; discriminate.
Qed.

End AppleExtras.

(** ** What the streaming normaliser emits *)

Module NormalizerExtras.
Import Normalizer.

Lemma is_prefix_app_inv (a x y : list ascii) :
  is_prefix a (x ++ y) = true -> length a <= length x -> is_prefix a x = true.
Proof.
  revert x. induction a as [|c a IH]; intros [|d x] H Hl; simpl in *; try reflexivity; try lia.
  apply andb_true_iff in H as [H1 H2]. rewrite H1. apply IH; [exact H2 | lia].
Qed.

Lemma search_app (pat b c : list ascii) (pos i : nat) :
  search pat b pos = Some i -> search pat (b ++ c) pos = Some i.
Proof.
  revert pos. induction b as [|x b IH]; intros pos H.
  - simpl in H. destruct (is_prefix pat []) eqn:E; [|discriminate].
    injection H as <-. destruct pat; [|discriminate].
    simpl. destruct c; reflexivity.
  - cbn [search] in H. destruct (is_prefix pat (x :: b)) eqn:E.
    + injection H as <-. cbn [search app].
      pose proof (NormalizerFacts.is_prefix_app_r pat (x :: b) c E) as E'.
      cbn [app] in E'. rewrite E'. reflexivity.
    + cbn [search app].
      destruct (is_prefix pat (x :: b ++ c)) eqn:E2.
      * exfalso. apply search_some in H as [_ H].
        apply NormalizerFacts.is_prefix_length in H. rewrite length_skipn in H.
        change (x :: b ++ c) with ((x :: b) ++ c) in E2.
        apply is_prefix_app_inv in E2; [congruence | simpl; lia].
      * exact (IH (S pos) H).
Qed.

Lemma indexOf_app (b c : list ascii) (fi : nat) :
  indexOf b finalMarker 0 = Some fi -> indexOf (b ++ c) finalMarker 0 = Some fi.
Proof. unfold indexOf. simpl. apply search_app. Qed.

Lemma firstn_add (a b : nat) (l : list ascii) :
  firstn (a + b) l = firstn a l ++ firstn b (skipn a l).
Proof.
  revert l. induction a as [|a IH]; intros [|x l]; simpl; try reflexivity.
  - destruct b; reflexivity.
  - f_equal. apply IH.
Qed.

Lemma firstn_skipn_app (e cs : nat) (b c : list ascii) :
  e <= length b - cs -> firstn e (skipn cs (b ++ c)) = firstn e (skipn cs b).
Proof.
  intros H. rewrite skipn_app, firstn_app, length_skipn.
  replace (e - (length b - cs)) with 0 by lia. simpl. apply app_nil_r.
Qed.

Lemma firstn_length_firstn (X : list ascii) (k : nat) :
  firstn (length (firstn k X)) X = firstn k X.
Proof.
  rewrite length_firstn. destruct (Nat.le_ge_cases k (length X)).
  - rewrite Nat.min_l by lia. reflexivity.
  - rewrite Nat.min_r by lia. rewrite firstn_all, firstn_all2 by lia. reflexivity.
Qed.

Lemma slice_extend (X : list ascii) (k e : nat) :
  e <= length (firstn k X) ->
  firstn e X ++ slice (firstn k X) e (length (firstn k X)) = firstn (length (firstn k X)) X.
Proof.
  intros H. unfold slice.
  rewrite (firstn_all2 (n := length (firstn k X) - e)) by (rewrite length_skipn; lia).
  rewrite firstn_length_firstn. rewrite length_firstn in H. transitivity (firstn e (firstn k X) ++ skipn e (firstn k X)).
  - f_equal. rewrite firstn_firstn. f_equal. lia.
  - apply firstn_skipn.
Qed.

(** The output so far is a prefix of the text after the first final
    marker of the buffer, at least as long as the current content. *)
Definition emitInv (p : Parser) (out : list ascii) : Prop :=
  match indexOf (buffer p) finalMarker 0 with
  | None => out = [] /\ emittedLength p = 0
  | Some fi =>
      out = firstn (emittedLength p) (skipn (fi + length finalMarker) (buffer p)) /\
      emittedLength p <= length (buffer p) - (fi + length finalMarker) /\
      length (currentContent (buffer p)) <= emittedLength p
  end.

Lemma processChunk_inv (p : Parser) (c out : list ascii) :
  emitInv p out ->
  buffer (snd (processChunk p c)) = buffer p ++ c /\
  emitInv (snd (processChunk p c)) (out ++ fst (processChunk p c)).
Proof.
  intros Hinv. unfold emitInv in *. unfold processChunk.
  destruct (indexOf (buffer p ++ c) finalMarker 0) as [fi|] eqn:Hfi.
  2:{ simpl. rewrite Hfi. destruct (indexOf (buffer p) finalMarker 0) as [fi'|] eqn:Hold.
      - rewrite (indexOf_app _ c _ Hold) in Hfi. discriminate.
      - destruct Hinv as [-> He]. split; [reflexivity | split; [reflexivity | exact He]]. }
  set (cs := fi + length finalMarker).
  assert (Hold : out = firstn (emittedLength p) (skipn cs (buffer p ++ c)) /\
                 emittedLength p <= length (buffer p ++ c) - cs).
  { destruct (indexOf (buffer p) finalMarker 0) as [fi'|] eqn:Hold.
    - rewrite (indexOf_app _ c _ Hold) in Hfi. injection Hfi as ->.
      destruct Hinv as (-> & He & _). fold cs in He |- *.
      rewrite firstn_skipn_app by exact He. split; [reflexivity|].
      rewrite length_app. lia.
    - destruct Hinv as [-> ->]. split; [reflexivity | lia]. }
  destruct Hold as [Hout He].
  assert (Hcc : currentContent (buffer p ++ c) =
                slice (buffer p ++ c) cs (nearestEnd (buffer p ++ c) endMarkers cs
                                           (length (buffer p ++ c)))).
  { unfold currentContent. rewrite Hfi. reflexivity. }
  set (ce := nearestEnd (buffer p ++ c) endMarkers cs (length (buffer p ++ c))) in *.
  set (X := skipn cs (buffer p ++ c)) in *.
  assert (Hlen : length (slice (buffer p ++ c) cs ce) <= length (buffer p ++ c) - cs).
  { unfold slice. rewrite length_firstn, length_skipn. lia. }
  destruct (emittedLength p <? length (slice (buffer p ++ c) cs ce)) eqn:Hlt; simpl; rewrite Hfi.
  - apply Nat.ltb_lt in Hlt. split; [reflexivity|]. fold cs.
    split; [|split; [exact Hlen | rewrite Hcc; lia]].
    change (fi + 27) with cs. fold X. rewrite Hout.
    assert (HS : slice (buffer p ++ c) cs ce = firstn (ce - cs) X) by reflexivity.
    rewrite HS in Hlt |- *. apply slice_extend. lia.
  - apply Nat.ltb_ge in Hlt. split; [reflexivity|]. fold cs.
    split; [rewrite app_nil_r; exact Hout|]. split; [exact He | rewrite Hcc; exact Hlt].
Qed.

Lemma feed_inv (chunks : list (list ascii)) (p : Parser) (out : list ascii) :
  emitInv p out ->
  buffer (snd (feed p chunks)) = buffer p ++ concat chunks /\
  emitInv (snd (feed p chunks)) (out ++ fst (feed p chunks)).
Proof.
  revert p out. induction chunks as [|c cs IH]; intros p out H; simpl.
  - rewrite !app_nil_r. split; [reflexivity | exact H].
  - destruct (processChunk_inv p c out H) as [Hb Hi].
    destruct (processChunk p c) as [e p1] eqn:Ep. simpl in Hb, Hi.
    destruct (IH p1 (out ++ e) Hi) as [Hb' Hi'].
    destruct (feed p1 cs) as [rest p2]. simpl in *.
    rewrite Hb', Hb, <- app_assoc. rewrite <- app_assoc in Hi'. split; [reflexivity | exact Hi'].
Qed.

(** For every chunking, the concatenated emissions are empty while the
    whole text has no final-channel marker; otherwise they are raw text
    that directly follows the first final marker, in order and without
    gaps, and they begin with the whole final-channel content that
    [processChunk] extracts from the complete text. *)
Theorem emitted_within_final_segment (chunks : list (list ascii)) :
  match indexOf (concat chunks) finalMarker 0 with
  | None => emitted chunks = []
  | Some fi =>
      (exists rest, emitted chunks = currentContent (concat chunks) ++ rest) /\
      (exists n, emitted chunks = firstn n (skipn (fi + length finalMarker) (concat chunks)))
  end.
Proof.
  destruct (feed_inv chunks newParser [] (conj eq_refl eq_refl)) as [Hb Hi].
  unfold emitted. simpl in Hb, Hi. unfold emitInv in Hi. rewrite Hb in Hi.
  destruct (indexOf (concat chunks) finalMarker 0) as [fi|] eqn:Hfi.
  - destruct Hi as (Hout & _ & Hcc). split; [|eauto].
    set (X := skipn (fi + length finalMarker) (concat chunks)) in *.
    assert (HccX : currentContent (concat chunks) =
                   firstn (length (currentContent (concat chunks))) X).
    { unfold currentContent. rewrite Hfi. unfold slice. fold X.
      symmetry. apply firstn_length_firstn. }
    exists (firstn (emittedLength (snd (feed newParser chunks)) -
                    length (currentContent (concat chunks)))
              (skipn (length (currentContent (concat chunks))) X)).
    rewrite Hout, HccX at 1. rewrite <- firstn_add. f_equal. lia.
  - destruct Hi as [Hout _]. exact Hout.
Qed.

End NormalizerExtras.
